(** * legacy_to_techdocs: translation of legacy API-docs URLs

    A shallow embedding of the Python package [legacy_to_techdocs]
    (and of the single-file script [legacy_to_techdocs.py] it grew out of),
    together with the properties of its normalizer, its link matcher, its
    resolver and its batch driver.

    Conventions of the embedding:
    - a Python [str] is a [string]; a character is a code point below 256
      (ASCII and Latin-1), classified as Python's [re] and [str.lower]
      classify it;
    - [Optional[T]] is [option T];
    - a [dict] is an association list in insertion order ([next(...)] over
      [items()] depends on that order);
    - a call that may raise returns an [outcome]; the handler of
      [replace_urls] runs in a small state-and-exception monad whose state
      holds the [replacements] list and what was printed to stderr. *)

From Stdlib Require Import Strings.String Strings.Ascii Lists.List ZArith.ZArith
  Arith.PeanoNat Bool.Bool Sorting.Permutation micromega.Lia.
Import ListNotations.
Open Scope string_scope.
Open Scope bool_scope.
Open Scope nat_scope.

Set Implicit Arguments.

(** ** Characters *)

Module Char.

Definition code (c : ascii) : nat := nat_of_ascii c.

Definition between (lo hi : nat) (c : ascii) : bool :=
  (lo <=? code c) && (code c <=? hi).

Definition only (x c : ascii) : bool := Ascii.eqb c x.

Definition newline : ascii := "010"%char.

(** [a-z], [A-Z], [0-9] as literal ranges of a character set. *)
Definition lower_az : ascii -> bool := between 97 122.
Definition upper_az : ascii -> bool := between 65 90.
Definition digit09 : ascii -> bool := between 48 57.

(** [\w] of a [str] pattern: [str.isalnum()] or underscore. *)
Definition word (c : ascii) : bool :=
  digit09 c || upper_az c || only "_" c || lower_az c
  || only "170" c || between 178 179 c || only "181" c || between 185 186 c
  || between 188 190 c || between 192 214 c || between 216 246 c
  || between 248 255 c.

(** [\s] of a [str] pattern. *)
Definition space (c : ascii) : bool :=
  between 9 13 c || between 28 32 c || only "133" c || only "160" c.

(** [str.lower()] on one character. *)
Definition lower (c : ascii) : ascii :=
  if upper_az c || between 192 214 c || between 216 222 c
  then ascii_of_nat (code c + 32) else c.

End Char.

(** ** Strings *)

Fixpoint str_map (f : ascii -> ascii) (s : string) : string :=
  match s with
  | EmptyString => EmptyString
  | String c s' => String (f c) (str_map f s')
  end.

Fixpoint str_filter (p : ascii -> bool) (s : string) : string :=
  match s with
  | EmptyString => EmptyString
  | String c s' => if p c then String c (str_filter p s') else str_filter p s'
  end.

Fixpoint str_forall (p : ascii -> bool) (s : string) : bool :=
  match s with
  | EmptyString => true
  | String c s' => p c && str_forall p s'
  end.

(** [s[:n]] and [s[n:]]. *)
Fixpoint take (n : nat) (s : string) : string :=
  match n, s with
  | S k, String c s' => String c (take k s')
  | _, _ => EmptyString
  end.

Fixpoint drop (n : nat) (s : string) : string :=
  match n, s with
  | S k, String _ s' => drop k s'
  | _, _ => s
  end.

(** [value.lower()] *)
Definition lower (s : string) : string := str_map Char.lower s.

(** [content.count(sub, 0, stop)] for a non-empty [sub]: occurrences are
    counted left to right without overlap. *)
Fixpoint count_from (sub s : string) (skip : nat) : nat :=
  match s with
  | EmptyString => 0
  | String _ s' =>
      match skip with
      | S k => count_from sub s' k
      | O => if prefix sub s
             then S (count_from sub s' (String.length sub - 1))
             else count_from sub s' 0
      end
  end.

Definition str_count (content sub : string) (stop : nat) : nat :=
  count_from sub (take stop content) 0.

(** [content.rfind(sub, 0, stop)]: the highest index of an occurrence lying
    inside [content[0:stop]], or [-1]. *)
Fixpoint rfind_from (sub s : string) (i last : Z) : Z :=
  match s with
  | EmptyString => last
  | String _ s' => rfind_from sub s' (i + 1) (if prefix sub s then i else last)
  end.

Definition str_rfind (content sub : string) (stop : nat) : Z :=
  rfind_from sub (take stop content) 0 (-1).

(** ** Outcomes of calls that may raise *)

Inductive outcome (E A : Type) : Type :=
| Return (a : A)
| Raise (e : E).
Arguments Return {E A} a.
Arguments Raise {E A} e.

Definition bind {E A B : Type} (x : outcome E A) (f : A -> outcome E B)
  : outcome E B :=
  match x with
  | Return a => f a
  | Raise e => Raise e
  end.

Notation "x <- e1 ;; e2" := (bind e1 (fun x => e2))
  (at level 61, e1 at next level, right associativity).

(** ** Dictionaries in insertion order *)

Module Dict.
Section WithKey.
Variables (K V : Type) (eqb : K -> K -> bool).

Definition t := list (K * V).

Fixpoint get (d : t) (k : K) : option V :=
  match d with
  | [] => None
  | (k', v) :: d' => if eqb k' k then Some v else get d' k
  end.

Definition mem (d : t) (k : K) : bool :=
  match get d k with Some _ => true | None => false end.

(** [d[k] = v]: an existing key keeps its position, a new one goes last. *)
Fixpoint set (d : t) (k : K) (v : V) : t :=
  match d with
  | [] => [(k, v)]
  | (k', v') :: d' => if eqb k' k then (k', v) :: d' else (k', v') :: set d' k v
  end.

Definition keys (d : t) : list K := map fst d.
Definition values (d : t) : list V := map snd d.
Definition items (d : t) : list (K * V) := d.
End WithKey.
End Dict.

Definition key := (string * string)%type.

Definition key_eqb (a b : key) : bool :=
  String.eqb (fst a) (fst b) && String.eqb (snd a) (snd b).

(** ** Regular expressions, as Python's backtracking matcher runs them *)

Module Re.

(** The constructs the repository's patterns use. [Plus1 p] is [x+] for a
    one-character item [x] (a set or a class), greedy. *)
Inductive regex : Type :=
| Eps
| Chr (c : ascii)
| Dot
| In_ (p : ascii -> bool)
| Cat (r1 r2 : regex)
| Alt (r1 r2 : regex)
| Opt (r : regex)
| Plus1 (p : ascii -> bool)
| Group (name : string) (r : regex)
| Ahead (r : regex)
| Eol.

(** A run of literal characters, and a sequence of items. *)
Fixpoint Lit (s : string) : regex :=
  match s with
  | EmptyString => Eps
  | String c s' => Cat (Chr c) (Lit s')
  end.

Fixpoint Seq (rs : list regex) : regex :=
  match rs with
  | [] => Eps
  | r :: rs' => Cat r (Seq rs')
  end.

(** A position of the matcher: the index into the subject, the text from
    there on, and the groups set so far. *)
Record mstate : Type := MState {
  pos : nat;
  rest : string;
  groups : list (string * string)
}.

Definition step (st : mstate) (s' : string) : mstate :=
  {| pos := pos st + 1; rest := s'; groups := groups st |}.

Definition set_group (name text : string) (st : mstate) : mstate :=
  {| pos := pos st; rest := rest st; groups := (name, text) :: groups st |}.

Definition one (p : ascii -> bool) (R : Type) (st : mstate)
    (k : mstate -> option R) : option R :=
  match rest st with
  | String c s' => if p c then k (step st s') else None
  | EmptyString => None
  end.

(** Greedy repetition of one-character items: take one, try to take more,
    and only when everything after that fails stop here. *)
Fixpoint plus1 (p : ascii -> bool) (R : Type) (s : string) (st : mstate)
    (k : mstate -> option R) : option R :=
  match s with
  | String c s' =>
      if p c then
        match plus1 p s' (step st s') k with
        | Some v => Some v
        | None => k (step st s')
        end
      else None
  | EmptyString => None
  end.

(** [run r st k]: match [r] at [st] and continue with [k]; alternatives are
    tried in the matcher's priority order and the first success wins. *)
Fixpoint run (r : regex) : forall R : Type,
    mstate -> (mstate -> option R) -> option R :=
  fun R st k =>
  match r with
  | Eps => k st
  | Chr c => one (Char.only c) st k
  | Dot => one (fun x => negb (Char.only Char.newline x)) st k
  | In_ p => one p st k
  | Cat r1 r2 => run r1 st (fun st1 => run r2 st1 k)
  | Alt r1 r2 =>
      match run r1 st k with
      | Some v => Some v
      | None => run r2 st k
      end
  | Opt r1 =>
      match run r1 st k with
      | Some v => Some v
      | None => k st
      end
  | Plus1 p => plus1 p (rest st) st k
  | Group name r1 =>
      run r1 st (fun st1 =>
        k (set_group name (take (pos st1 - pos st) (rest st)) st1))
  | Ahead r1 =>
      match run r1 st (fun _ => Some tt) with
      | Some _ => k st
      | None => None
      end
  | Eol =>
      match rest st with
      | EmptyString => k st
      | String c _ => if Char.only Char.newline c then k st else None
      end
  end.

(** A match object: [start()], [end()], the matched text
    [string[start():end()]] and the groups that took part. *)
Record Match : Type := MkMatch {
  m_start : nat;
  m_end : nat;
  m_text : string;
  m_groups : list (string * string)
}.

Fixpoint assoc (name : string) (g : list (string * string)) : option string :=
  match g with
  | [] => None
  | (n, v) :: g' => if String.eqb n name then Some v else assoc name g'
  end.

(** [match.group(name)] / [match[name]]: [None] for a group that did not
    take part. *)
Definition group (m : Match) (name : string) : option string :=
  assoc name (m_groups m).

(** The match starting exactly at index [i], where [s] is the subject from
    [i] on. None of the constructs looks behind, so [s] is all it needs. *)
Definition match_at (r : regex) (i : nat) (s : string) : option Match :=
  run r {| pos := i; rest := s; groups := [] |}
    (fun st => Some {| m_start := i; m_end := pos st;
                       m_text := take (pos st - i) s;
                       m_groups := groups st |}).

End Re.

(** ** [re.sub] with a callable replacement

    The handlers of this program have effects: they append to a list, print
    a warning, or raise. [sub] threads a state [St] through the calls and
    stops at the first exception. A handler that returns [None] contributes
    nothing to the result (the matcher's [pattern_subx] skips [None] items).

    Every pattern of the program consumes at least one character
    ([patterns_nonempty] below), so the rule by which [re] searches again
    after an empty match never comes into play; an empty match would here
    just insert its replacement. *)

Module Sub.
Section WithHandler.
Variables (St E : Type).
Variable r : Re.regex.
Variable handler : Re.Match -> St -> outcome E (option string) * St.

Definition item (o : option string) : string :=
  match o with Some t => t | None => "" end.

Definition emit (t : string) (res : outcome E string * St)
  : outcome E string * St :=
  match res with
  | (Return u, st) => (Return (t ++ u), st)
  | (Raise e, st) => (Raise e, st)
  end.

(** [go i s skip st]: [s] is the subject from index [i] on; [skip] counts
    the characters of the current match still to be passed over. A match
    is looked for at every index not inside an earlier match. *)
Fixpoint go (i : nat) (s : string) (skip : nat) (st : St)
  : outcome E string * St :=
  match s with
  | EmptyString =>
      match skip with
      | S _ => (Return "", st)
      | O =>
          match Re.match_at r i s with
          | Some m =>
              match handler m st with
              | (Return o, st1) => (Return (item o), st1)
              | (Raise e, st1) => (Raise e, st1)
              end
          | None => (Return "", st)
          end
      end
  | String c s' =>
      match skip with
      | S n => go (S i) s' n st
      | O =>
          match Re.match_at r i s with
          | Some m =>
              match handler m st with
              | (Return o, st1) =>
                  match Re.m_end m - Re.m_start m with
                  | O => emit (item o ++ String c "") (go (S i) s' 0 st1)
                  | S n => emit (item o) (go (S i) s' n st1)
                  end
              | (Raise e, st1) => (Raise e, st1)
              end
          | None => emit (String c "") (go (S i) s' 0 st)
          end
      end
  end.

Definition sub (target : string) (st : St) : outcome E string * St :=
  go 0 target 0 st.
End WithHandler.

(** [pattern.sub(repl, s)] with a string replacement free of backslashes. *)
Definition sub_const (r : Re.regex) (repl s : string) : string :=
  match sub r (fun _ (st : unit) => (Return (E := unit) (Some repl), st)) s tt with
  | (Return t, _) => t
  | (Raise _, _) => s
  end.
End Sub.

(** ** The API description, as the [openapi3] library hands it over

    Only what the program reads: every operation knows its place in the
    document ([op.path], ending in the path string and the method name). *)

Module ExternalDocumentation.
Record t : Type := Make { url : option string }.
End ExternalDocumentation.

Module Operation.
Record t : Type := Make {
  summary : option string;
  tags : option (list string);
  externalDocs : option ExternalDocumentation.t;
  path : list string
}.
End Operation.

Module Path.
Record t : Type := Make {
  get : option Operation.t;
  put : option Operation.t;
  post : option Operation.t;
  delete : option Operation.t
}.
End Path.

Module OpenAPI.
Record t : Type := Make {
  externalDocs : option ExternalDocumentation.t;
  paths : list (string * Path.t)
}.
End OpenAPI.

(** ** openapi.py *)

(** [URL_PATH_IDS_REGEX = re.compile(r"{[^}]+}")] *)
Definition URL_PATH_IDS_REGEX : Re.regex :=
  Re.Seq [Re.Chr "{"; Re.Plus1 (fun c => negb (Char.only "}" c)); Re.Chr "}"].

(** Removes all ID names from the given URL (e.g. /test/{id} -> /test/{}) *)
Definition _strip_url_ids (url : string) : string :=
  Sub.sub_const URL_PATH_IDS_REGEX "{}" url.

(** A condensed version of openapi3.Operation. [from_operation] always
    stores strings in [path] and [method]. *)
Module CondensedOperation.
Record t : Type := Make {
  summary : option string;
  tag : option string;
  path : string;
  method : string;
  external_docs_url : option string
}.
End CondensedOperation.

Module CondensedOpenAPI.
Record t : Type := Make {
  root_docs_url : option string;
  paths : Dict.t key CondensedOperation.t
}.
End CondensedOpenAPI.

(** ** translation.py: metadata and errors *)

Module TranslationMeta.
Record t : Type := Make {
  before : string;
  after : option string;
  file : option string;
  location : option (Z * Z)
}.
End TranslationMeta.

(** The messages of [TranslationError], kept as data instead of rendered
    f-strings. *)
Inductive message : Type :=
| PairNotFound (op_key : option string * option string)
| CouldNotGetEquivalent (op_key : option string * option string)
| NoExternalDocs (new_op : CondensedOperation.t)
| PathNotFound (k : key).

Inductive exn : Type :=
| TranslationError (msg : message) (translation_meta : option TranslationMeta.t)
| StopIteration
| ValueError (msg : string)
| IndexError
| AttributeError (name : string)
| FileNotFoundError (filename : string)
| UnicodeDecodeError
| UnpicklingError.

(** [seq[-1]] and [seq[-2]] *)
Definition index_back (n : nat) (l : list string) : outcome exn string :=
  match nth_error (rev l) n with
  | Some x => Return x
  | None => Raise IndexError
  end.

(** [CondensedOperation.from_operation] *)
Definition from_operation (op : Operation.t) : outcome exn CondensedOperation.t :=
  let tag :=
    match Operation.tags op with
    | Some (t :: _) => Some t
    | Some [] | None => None
    end in
  p <- index_back 1 (Operation.path op) ;;
  m <- index_back 0 (Operation.path op) ;;
  Return {| CondensedOperation.summary := Operation.summary op;
            CondensedOperation.tag := tag;
            CondensedOperation.path := _strip_url_ids p;
            CondensedOperation.method := m;
            CondensedOperation.external_docs_url :=
              match Operation.externalDocs op with
              | Some d => ExternalDocumentation.url d
              | None => None
              end |}.

(** [valid_paths] is a set literal; in which order its four names are
    visited is up to the interpreter, so [from_spec] takes the order. *)
Definition valid_paths : list string := ["get"; "post"; "put"; "delete"].

Definition getattr (p : Path.t) (v : string) : outcome exn (option Operation.t) :=
  if String.eqb v "get" then Return (Path.get p)
  else if String.eqb v "post" then Return (Path.post p)
  else if String.eqb v "put" then Return (Path.put p)
  else if String.eqb v "delete" then Return (Path.delete p)
  else Raise (AttributeError v).

(** [[getattr(path, v) for v in cls.valid_paths]] *)
Fixpoint getattrs (p : Path.t) (order : list string)
  : outcome exn (list (option Operation.t)) :=
  match order with
  | [] => Return []
  | v :: vs =>
      o <- getattr p v ;;
      os <- getattrs p vs ;;
      Return (o :: os)
  end.

Definition paths_t := Dict.t key CondensedOperation.t.

(** The inner loop of [from_spec], over the operations of one path item. *)
Fixpoint index_ops (ops : list (option Operation.t)) (paths : paths_t)
  : outcome exn paths_t :=
  match ops with
  | [] => Return paths
  | None :: ops' => index_ops ops' paths
  | Some op :: ops' =>
      op_parsed <- from_operation op ;;
      index_ops ops'
        (Dict.set key_eqb paths
           (CondensedOperation.path op_parsed, CondensedOperation.method op_parsed)
           op_parsed)
  end.

(** The outer loop, over [spec.paths.values()]. *)
Fixpoint index_paths (order : list string) (items : list Path.t) (paths : paths_t)
  : outcome exn paths_t :=
  match items with
  | [] => Return paths
  | p :: items' =>
      ops <- getattrs p order ;;
      paths' <- index_ops ops paths ;;
      index_paths order items' paths'
  end.

(** [CondensedOpenAPI.from_spec] *)
Definition from_spec (order : list string) (spec : OpenAPI.t)
  : outcome exn CondensedOpenAPI.t :=
  let root_docs_url :=
    match OpenAPI.externalDocs spec with
    | Some d => ExternalDocumentation.url d
    | None => None
    end in
  paths <- index_paths order (Dict.values (OpenAPI.paths spec)) [] ;;
  Return {| CondensedOpenAPI.root_docs_url := root_docs_url;
            CondensedOpenAPI.paths := paths |}.

(** ** translation.py: patterns *)

(** [URL_PATH_REGEX = re.compile(r"[^a-zA-z0-9- ]")]; the second range
    runs from [A] to lower-case [z], as written. *)
Definition url_path_allowed (c : ascii) : bool :=
  Char.lower_az c || Char.between 65 122 c || Char.digit09 c
  || Char.only "-" c || Char.only " " c.

Definition URL_PATH_REGEX : Re.regex :=
  Re.In_ (fun c => negb (url_path_allowed c)).

Definition word_or_hyphen (c : ascii) : bool := Char.word c || Char.only "-" c.

Definition alnum_or_hyphen (c : ascii) : bool :=
  Char.lower_az c || Char.upper_az c || Char.digit09 c || Char.only "-" c.

(** The set of the lookahead: a double quote, [\s] or a closing parenthesis. *)
Definition delimiter (c : ascii) : bool :=
  Char.only "034" c || Char.space c || Char.only ")" c.

(** [LEGACY_URL_REGEX], compiled with [re.MULTILINE] (the double quote of
    the lookahead set is written [\x22] here):
[[
(?:https://www.)?linode.com/docs/api/?(?P<tag>[\w-]+)?/?#?
(?P<summary>[a-zA-Z0-9-]+)?(?:__(?P<anchor>[\w\-]+))?(?=[\x22\s)]|$)
]] *)
Definition LEGACY_URL_REGEX : Re.regex :=
  Re.Seq
    [ Re.Opt (Re.Seq [Re.Lit "https://www"; Re.Dot]);
      Re.Lit "linode"; Re.Dot; Re.Lit "com/docs/api";
      Re.Opt (Re.Chr "/");
      Re.Opt (Re.Group "tag" (Re.Plus1 word_or_hyphen));
      Re.Opt (Re.Chr "/");
      Re.Opt (Re.Chr "#");
      Re.Opt (Re.Group "summary" (Re.Plus1 alnum_or_hyphen));
      Re.Opt (Re.Seq [Re.Lit "__"; Re.Group "anchor" (Re.Plus1 word_or_hyphen)]);
      Re.Ahead (Re.Alt (Re.In_ delimiter) Re.Eol) ].

(** shared.py: the identifying information of a legacy API docs URL. *)
Module LegacyURLComponents.
Record t : Type := Make {
  tag : option string;
  summary : option string;
  anchor : option string
}.
End LegacyURLComponents.

(** The components built from [match.groupdict()]. *)
Definition components_of (m : Re.Match) : LegacyURLComponents.t :=
  {| LegacyURLComponents.tag := Re.group m "tag";
     LegacyURLComponents.summary := Re.group m "summary";
     LegacyURLComponents.anchor := Re.group m "anchor" |}.

(** [os.linesep], on a POSIX system. *)
Definition linesep : string := String Char.newline "".

(** [TranslationMeta.get_match_location] *)
Definition get_match_location (content : string) (m : Re.Match) : Z * Z :=
  let absolute_position := Re.m_start m in
  (Z.of_nat (str_count content linesep absolute_position) + 1,
   Z.of_nat absolute_position - str_rfind content linesep absolute_position)%Z.

(** ** translation.py: the translator *)

Definition op_map_t := Dict.t key CondensedOperation.t.

Module URLTranslator.
Record t : Type := Make {
  _legacy_spec : CondensedOpenAPI.t;
  _new_spec : CondensedOpenAPI.t;
  _legacy_op_map : op_map_t
}.
End URLTranslator.
Import URLTranslator.

(** [value.replace(" ", "-")] *)
Definition replace_space (s : string) : string :=
  str_map (fun c => if Char.only " " c then "-"%char else c) s.

(** [URLTranslator._flatten_path_for_url] *)
Definition _flatten_path_for_url (value : string) : string :=
  replace_space (Sub.sub_const URL_PATH_REGEX "" (lower value)).

(** The loop of [URLTranslator._build_op_map] over [paths.values()]. *)
Fixpoint build_op_map_from (ops : list CondensedOperation.t) (result : op_map_t)
  : op_map_t :=
  match ops with
  | [] => result
  | op :: ops' =>
      match CondensedOperation.tag op, CondensedOperation.summary op with
      | Some t, Some s =>
          build_op_map_from ops'
            (Dict.set key_eqb result
               (_flatten_path_for_url t, _flatten_path_for_url s) op)
      | _, _ => build_op_map_from ops' result
      end
  end.

Definition _build_op_map (legacy_spec : CondensedOpenAPI.t) : op_map_t :=
  build_op_map_from (Dict.values (CondensedOpenAPI.paths legacy_spec)) [].

(** [URLTranslator.__init__] *)
Definition __init__ (order : list string) (legacy_spec new_spec : OpenAPI.t)
  : outcome exn URLTranslator.t :=
  l <- from_spec order legacy_spec ;;
  n <- from_spec order new_spec ;;
  Return {| _legacy_spec := l; _new_spec := n; _legacy_op_map := _build_op_map l |}.

(** [URLTranslator.get_equivalent_operation]; the key is
    [f"/{{}}{legacy_operation.path}", legacy_operation.method]. *)
Definition equivalent_key (legacy_operation : CondensedOperation.t) : key :=
  ("/{}" ++ CondensedOperation.path legacy_operation,
   CondensedOperation.method legacy_operation).

Definition get_equivalent_operation (self : URLTranslator.t)
    (legacy_operation : CondensedOperation.t) : outcome exn CondensedOperation.t :=
  let k := equivalent_key legacy_operation in
  match Dict.get key_eqb (CondensedOpenAPI.paths (_new_spec self)) k with
  | None => Raise (TranslationError (PathNotFound k) None)
  | Some op => Return op
  end.

(** [next(op for key, op in items if key[0] == tag)] *)
Definition first_with_tag (d : op_map_t) (tag : string)
  : outcome exn CondensedOperation.t :=
  match find (fun kv => String.eqb (fst (fst kv)) tag) (Dict.items d) with
  | Some (_, op) => Return op
  | None => Raise StopIteration
  end.

(** [URLTranslator._translate_from_components]; the result is the new URL,
    which is [None] when the new spec has no root [externalDocs]. *)
Definition _translate_from_components (self : URLTranslator.t)
    (components : LegacyURLComponents.t) : outcome exn (option string) :=
  let op_key := (LegacyURLComponents.tag components,
                 LegacyURLComponents.summary components) in
  match LegacyURLComponents.tag components with
  | None => Return (CondensedOpenAPI.root_docs_url (_new_spec self))
  | Some tag =>
      legacy_op <-
        match LegacyURLComponents.summary components with
        | None => first_with_tag (_legacy_op_map self) tag
        | Some summary =>
            match Dict.get key_eqb (_legacy_op_map self) (tag, summary) with
            | None => Raise (TranslationError (PairNotFound op_key) None)
            | Some op => Return op
            end
        end ;;
      new_op <-
        match get_equivalent_operation self legacy_op with
        | Raise (ValueError _) =>
            Raise (TranslationError (CouldNotGetEquivalent op_key) None)
        | other => other
        end ;;
      match CondensedOperation.external_docs_url new_op with
      | None => Raise (TranslationError (NoExternalDocs new_op) None)
      | Some u => Return (Some u)
      end
  end.

(** What a call of [replace_urls] builds up: the [replacements] list and
    the warnings printed to stderr (the errors themselves, unrendered). *)
Record effects : Type := Effects {
  replacements : list TranslationMeta.t;
  stderr : list exn
}.

(** [_sub_handler], the closure inside [replace_urls]. *)
Definition _sub_handler (self : URLTranslator.t) (target : string) (force : bool)
    (path : option string) (m : Re.Match) (st : effects)
  : outcome exn (option string) * effects :=
  let result := Re.m_text m in
  let meta after :=
    {| TranslationMeta.before := result;
       TranslationMeta.after := after;
       TranslationMeta.file := path;
       TranslationMeta.location := Some (get_match_location target m) |} in
  match _translate_from_components self (components_of m) with
  | Return result' =>
      (Return result',
       {| replacements := replacements st ++ [meta result']; stderr := stderr st |})
  | Raise (TranslationError msg _) =>
      let err := TranslationError msg (Some (meta None)) in
      if negb force then (Raise err, st)
      else (Return (Some result),
            {| replacements := replacements st; stderr := stderr st ++ [err] |})
  | Raise e => (Raise e, st)
  end.

(** [URLTranslator.replace_urls]: the pair it returns (or the exception that
    escapes), and what it printed to stderr. *)
Definition replace_urls (self : URLTranslator.t) (target : string) (force : bool)
    (path : option string)
  : outcome exn (string * list TranslationMeta.t) * list exn :=
  match Sub.sub LEGACY_URL_REGEX (_sub_handler self target force path) target
          {| replacements := []; stderr := [] |} with
  | (Return text, st) => (Return (text, replacements st), stderr st)
  | (Raise e, st) => (Raise e, stderr st)
  end.

(** ** legacy_to_techdocs.py, the single-file script *)

Module Script.

(** [URL_PATH_REGEX = re.compile(r"[^a-z ]")] *)
Definition url_path_allowed (c : ascii) : bool :=
  Char.lower_az c || Char.only " " c.

Definition URL_PATH_REGEX : Re.regex :=
  Re.In_ (fun c => negb (url_path_allowed c)).

Definition _flatten_path_for_url (value : string) : string :=
  replace_space (Sub.sub_const URL_PATH_REGEX "" (lower value)).

(** The operations of one path item, for [("get", "delete", "post", "put")]. *)
Definition operations (p : Path.t) : list (option Operation.t) :=
  [Path.get p; Path.delete p; Path.post p; Path.put p].

Fixpoint build_from (ops : list (option Operation.t))
    (result : Dict.t key Operation.t) : Dict.t key Operation.t :=
  match ops with
  | [] => result
  | Some op :: ops' =>
      match Operation.tags op, Operation.summary op with
      | Some (t :: _), Some s =>
          build_from ops'
            (Dict.set key_eqb result
               (_flatten_path_for_url t, _flatten_path_for_url s) op)
      | _, _ => build_from ops' result
      end
  | None :: ops' => build_from ops' result
  end.

Definition _build_op_map (legacy_spec : OpenAPI.t) : Dict.t key Operation.t :=
  build_from (flat_map operations (Dict.values (OpenAPI.paths legacy_spec))) [].

End Script.

(** ** The command line: [ReplaceCommand.execute], [pickle], [load_pickled]

    The file system maps a path to a file; a file holds text or the byte
    stream of a pickled translator. [pickle.dump] and [pickle.load] belong to
    the Python library: they are parameters here, and what is proved about a
    round trip rests on the library's contract [loads_dumps]. The rendering
    of the result table (and its sorting by rendered text) is left out; the
    table is kept as the list of translations it is built from. *)

Inductive file (blob : Type) : Type :=
| Text (content : string)
| Pickled (b : blob).
Arguments Text {blob} content.
Arguments Pickled {blob} b.

Inductive io_event : Type :=
| FileRead (filename : string)
| FileWritten (filename : string).

Inductive printed : Type :=
| Warning (e : exn)
| Table (rows : list TranslationMeta.t).

Record world (blob : Type) : Type := World {
  fs : string -> option (file blob);
  io_log : list io_event;
  stdout : list string;
  console_stderr : list printed
}.

Module Namespace.
Record t : Type := Make {
  path : list string;
  write_changes : bool;
  force : bool
}.
End Namespace.

Section CommandLine.
Variable blob : Type.
Variable dumps : URLTranslator.t -> blob.
Variable loads : blob -> outcome exn URLTranslator.t.
Variable PICKLE_PATH : string.

Definition logged (e : io_event) (w : world blob) : world blob :=
  {| fs := fs w; io_log := io_log w ++ [e]; stdout := stdout w;
     console_stderr := console_stderr w |}.

(** [open(path, "w")] followed by [f.write(...)], or [pickle.dump]. *)
Definition write_file (filename : string) (f : file blob) (w : world blob) : world blob :=
  {| fs := fun p => if String.eqb p filename then Some f else fs w p;
     io_log := io_log w ++ [FileWritten filename];
     stdout := stdout w; console_stderr := console_stderr w |}.

Definition sys_stdout_write (text : string) (w : world blob) : world blob :=
  {| fs := fs w; io_log := io_log w; stdout := stdout w ++ [text];
     console_stderr := console_stderr w |}.

Definition console_print (ps : list printed) (w : world blob) : world blob :=
  {| fs := fs w; io_log := io_log w; stdout := stdout w;
     console_stderr := console_stderr w ++ ps |}.

(** [open(file, "r")] followed by [f.read()]. *)
Definition read_text (filename : string) (w : world blob) : outcome exn string * world blob :=
  match fs w filename with
  | None => (Raise (FileNotFoundError filename), w)
  | Some (Text content) => (Return content, logged (FileRead filename) w)
  | Some (Pickled _) => (Raise UnicodeDecodeError, logged (FileRead filename) w)
  end.

(** [URLTranslator.load_pickled] *)
Definition load_pickled (path : string) (w : world blob)
  : outcome exn URLTranslator.t * world blob :=
  match fs w path with
  | None => (Raise (FileNotFoundError path), w)
  | Some (Pickled b) => (loads b, logged (FileRead path) w)
  | Some (Text _) => (Raise UnpicklingError, logged (FileRead path) w)
  end.

(** [URLTranslator.pickle] *)
Definition pickle (self : URLTranslator.t) (path : string) (w : world blob) : world blob :=
  write_file path (Pickled (dumps self)) w.

(** The loop of [ReplaceCommand.execute] over [args.path]. *)
Fixpoint replace_files (translator : URLTranslator.t) (args : Namespace.t)
    (files : list string) (results : list TranslationMeta.t) (w : world blob)
  : outcome exn (list TranslationMeta.t) * world blob :=
  match files with
  | [] => (Return results, w)
  | file :: files' =>
      match read_text file w with
      | (Raise e, w1) => (Raise e, w1)
      | (Return content, w1) =>
          match replace_urls translator content (Namespace.force args) (Some file) with
          | (Raise e, warned) => (Raise e, console_print (map Warning warned) w1)
          | (Return (updated_content, translations), warned) =>
              let w2 := console_print (map Warning warned) w1 in
              let w3 :=
                if Namespace.write_changes args
                then write_file file (Text updated_content) w2
                else sys_stdout_write updated_content w2 in
              replace_files translator args files' (results ++ translations) w3
          end
      end
  end.

(** [ReplaceCommand.execute] *)
Definition execute (args : Namespace.t) (w : world blob) : outcome exn unit * world blob :=
  match load_pickled PICKLE_PATH w with
  | (Raise e, w1) => (Raise e, w1)
  | (Return translator, w1) =>
      if negb (Namespace.write_changes args) && (1 <? length (Namespace.path args))
      then (Raise (ValueError
              "--write_changes must be specified when more than one path is given"),
            w1)
      else
        match replace_files translator args (Namespace.path args) [] w1 with
        | (Raise e, w2) => (Raise e, w2)
        | (Return results, w2) => (Return tt, console_print [Table results] w2)
        end
  end.
End CommandLine.

(** * Specifications *)

(** ** What a pattern denotes

    [sem r w s' g]: [r] can consume the text [w] when [s'] follows it,
    setting the groups [g] (latest first). The matcher explores exactly
    these possibilities, in its priority order. *)

Fixpoint sem (r : Re.regex) (w s' : string) (g : list (string * string)) : Prop :=
  match r with
  | Re.Eps => w = "" /\ g = []
  | Re.Chr c => w = String c "" /\ g = []
  | Re.Dot => (exists c, w = String c "" /\ c <> Char.newline) /\ g = []
  | Re.In_ p => (exists c, w = String c "" /\ p c = true) /\ g = []
  | Re.Cat r1 r2 =>
      exists w1 w2 g1 g2,
        w = w1 ++ w2 /\ g = (g2 ++ g1)%list /\
        sem r1 w1 (w2 ++ s') g1 /\ sem r2 w2 s' g2
  | Re.Alt r1 r2 => sem r1 w s' g \/ sem r2 w s' g
  | Re.Opt r1 => sem r1 w s' g \/ (w = "" /\ g = [])
  | Re.Plus1 p => (w <> "" /\ str_forall p w = true) /\ g = []
  | Re.Group name r1 => exists g1, sem r1 w s' g1 /\ g = (name, w) :: g1
  | Re.Ahead r1 =>
      (w = "" /\ g = []) /\ exists w1 s1 g1, s' = w1 ++ s1 /\ sem r1 w1 s1 g1
  | Re.Eol =>
      (w = "" /\ g = []) /\ (s' = "" \/ exists t, s' = String Char.newline t)
  end.

(** The matcher's position after consuming [w] and setting [g]. *)
Definition after (st : Re.mstate) (w s' : string) (g : list (string * string))
  : Re.mstate :=
  {| Re.pos := Re.pos st + String.length w; Re.rest := s';
     Re.groups := (g ++ Re.groups st)%list |}.

(** [pattern.finditer]: the matches [re.sub] visits, left to right. *)
Fixpoint finditer (r : Re.regex) (i : nat) (s : string) (skip : nat) : list Re.Match :=
  match s with
  | EmptyString =>
      match skip with
      | S _ => []
      | O => match Re.match_at r i s with Some m => [m] | None => [] end
      end
  | String _ s' =>
      match skip with
      | S n => finditer r (S i) s' n
      | O =>
          match Re.match_at r i s with
          | Some m => m :: finditer r (S i) s' (Nat.pred (Re.m_end m - Re.m_start m))
          | None => finditer r (S i) s' 0
          end
      end
  end.

(** [rewritten r P i s t]: [t] is [s] (the subject from index [i] on) with
    the leftmost, non-overlapping matches of [r] replaced, every other
    character copied in place; [P m o] holds of each match and of what was
    put in its place ([None] puts nothing). *)
Inductive rewritten (r : Re.regex) (P : Re.Match -> option string -> Prop)
  : nat -> string -> string -> Prop :=
| rw_end i : rewritten r P i "" ""
| rw_keep i c s t :
    Re.match_at r i (String c s) = None ->
    rewritten r P (S i) s t ->
    rewritten r P i (String c s) (String c t)
| rw_match i s m o t :
    Re.match_at r i s = Some m ->
    Re.m_start m = i ->
    Re.m_start m < Re.m_end m ->
    Re.m_end m - Re.m_start m <= String.length s ->
    Re.m_text m = take (Re.m_end m - Re.m_start m) s ->
    P m o ->
    rewritten r P (Re.m_end m) (drop (Re.m_end m - Re.m_start m) s) t ->
    rewritten r P i s (Sub.item o ++ t).

(** The least number of characters a pattern consumes. *)
Fixpoint min_len (r : Re.regex) : nat :=
  match r with
  | Re.Eps | Re.Opt _ | Re.Ahead _ | Re.Eol => 0
  | Re.Chr _ | Re.Dot | Re.In_ _ | Re.Plus1 _ => 1
  | Re.Cat r1 r2 => min_len r1 + min_len r2
  | Re.Alt r1 r2 => Nat.min (min_len r1) (min_len r2)
  | Re.Group _ r1 => min_len r1
  end.

(** What the handler put in the place of a match. *)
Definition put (St E : Type)
    (handler : Re.Match -> St -> outcome E (option string) * St)
    (m : Re.Match) (o : option string) : Prop :=
  exists st0 st1, handler m st0 = (Return o, st1).

(** ** The resolver, case by case *)

(** The translation of one match. *)
Definition translate (self : URLTranslator.t) (m : Re.Match)
  : outcome exn (option string) :=
  _translate_from_components self (components_of m).

(** The matched URL resolves to the legacy operation [lop]: either through
    its (tag, summary) pair, taken as matched, or, without a summary,
    through the first operation of the map filed under its tag. *)
Definition resolves (self : URLTranslator.t) (m : Re.Match)
    (lop : CondensedOperation.t) : Prop :=
  exists t, Re.group m "tag" = Some t /\
    match Re.group m "summary" with
    | Some s => Dict.get key_eqb (_legacy_op_map self) (t, s) = Some lop
    | None => first_with_tag (_legacy_op_map self) t = Return lop
    end.

(** A tag without a summary, and no operation of the map under that tag. *)
Definition tag_only_miss (self : URLTranslator.t) (m : Re.Match) : Prop :=
  exists t, Re.group m "tag" = Some t /\ Re.group m "summary" = None /\
    first_with_tag (_legacy_op_map self) t = Raise StopIteration.

Definition pair_absent (self : URLTranslator.t) (m : Re.Match) : Prop :=
  exists t s, Re.group m "tag" = Some t /\ Re.group m "summary" = Some s /\
    Dict.get key_eqb (_legacy_op_map self) (t, s) = None.

Definition new_path_absent (self : URLTranslator.t) (m : Re.Match) : Prop :=
  exists lop, resolves self m lop /\
    Dict.get key_eqb (CondensedOpenAPI.paths (_new_spec self)) (equivalent_key lop)
    = None.

Definition new_docs_absent (self : URLTranslator.t) (m : Re.Match) : Prop :=
  exists lop nop, resolves self m lop /\
    Dict.get key_eqb (CondensedOpenAPI.paths (_new_spec self)) (equivalent_key lop)
    = Some nop /\
    CondensedOperation.external_docs_url nop = None.

(** The metadata [_sub_handler] builds for a match. *)
Definition match_meta (target : string) (path : option string) (m : Re.Match)
    (after : option string) : TranslationMeta.t :=
  {| TranslationMeta.before := Re.m_text m;
     TranslationMeta.after := after;
     TranslationMeta.file := path;
     TranslationMeta.location := Some (get_match_location target m) |}.

(** ** The normalizer's input *)

(** [order] is an iteration order of the set [valid_paths]. *)
Definition iteration_order (order : list string) : Prop :=
  Permutation order valid_paths.

(** What [openapi3] guarantees of [op.path]: the operation found at
    attribute [v] of the path item under key [k] sits at [paths/k/v]. *)
Definition well_placed (spec : OpenAPI.t) : Prop :=
  forall k item v op,
    In (k, item) (OpenAPI.paths spec) -> In v valid_paths ->
    getattr item v = Return (Some op) ->
    Operation.path op = ["paths"; k; v].

(** The operation [op] is found in [spec] under path [k] and method [v]. *)
Definition operation_at (spec : OpenAPI.t) (k v : string) (op : Operation.t)
  : Prop :=
  exists item, In (k, item) (OpenAPI.paths spec) /\ In v valid_paths /\
               getattr item v = Return (Some op).

(** ** The script and the package *)

(** The characters a lower-cased string can hold that the package's
    pattern keeps and the script's pattern removes: digits, the hyphen and
    the six characters between [Z] and [a]. *)
Definition kept_by_package_only (c : ascii) : bool :=
  Char.digit09 c || Char.only "-" c || Char.between 91 96 c.

Definition flattens_alike (value : string) : bool :=
  str_forall (fun c => negb (kept_by_package_only c)) (lower value).

Module Example9.

Definition spec : OpenAPI.t :=
  {| OpenAPI.externalDocs := None;
     OpenAPI.paths :=
       [("/networking/ipv6/ranges",
         {| Path.get := None; Path.put := None;
            Path.post := Some {| Operation.summary := Some "IPv6 Range Create";
                                 Operation.tags := Some ["Networking"];
                                 Operation.externalDocs := None;
                                 Operation.path :=
                                   ["paths"; "/networking/ipv6/ranges"; "post"] |};
            Path.delete := None |})] |}.

End Example9.

(** ** The link matcher, component by component *)

(** The text of an optional component, of an optional anchor with its
    [__], and of an optional separator. *)
Definition text_of (o : option string) : string :=
  match o with Some t => t | None => "" end.

Definition anchor_text (o : option string) : string :=
  match o with Some a => "__" ++ a | None => "" end.

Definition flag (b : bool) (t : string) : string := if b then t else "".

(** A component that is present is a non-empty run of characters of [p]. *)
Definition component_ok (p : ascii -> bool) (o : option string) : Prop :=
  match o with
  | Some t => t <> "" /\ str_forall p t = true
  | None => True
  end.

Definition captured_as (name : string) (o : option string) : list (string * string) :=
  match o with Some t => [(name, t)] | None => [] end.

(** The groups a match sets, latest first. *)
Definition captured (tg su an : option string) : list (string * string) :=
  (captured_as "anchor" an ++ captured_as "summary" su ++ captured_as "tag" tg)%list.

(** What may follow the base of a link: separators and components. *)
Definition link_tail (sl1 : bool) (tg : option string) (sl2 h : bool)
    (su an : option string) : string :=
  flag sl1 "/" ++ text_of tg ++ flag sl2 "/" ++ flag h "#" ++ text_of su
  ++ anchor_text an.

Definition link_tail_ok (tg su an : option string) : Prop :=
  component_ok word_or_hyphen tg /\ component_ok alnum_or_hyphen su /\
  component_ok word_or_hyphen an.

(** The character the unescaped dot of [https://www.] took, if the scheme
    is there. *)
Definition scheme_text (o : option ascii) : string :=
  match o with Some d => "https://www" ++ String d "" | None => "" end.

Definition dot_ok (o : option ascii) : Prop :=
  match o with Some d => d <> Char.newline | None => True end.

(** The base as matched: each dot of the pattern takes any character but a
    newline. *)
Definition matched_base (sch : option ascii) (d : ascii) : string :=
  scheme_text sch ++ "linode" ++ String d "" ++ "com/docs/api".

(** The position right after a match: the end of the text, or a double
    quote, whitespace or a closing parenthesis. *)
Definition at_boundary (following : string) : bool :=
  match following with
  | EmptyString => true
  | String c _ => delimiter c
  end.

(** The base of a link, written with its literal dots. *)
Definition base (www : bool) : string :=
  flag www "https://www." ++ "linode.com/docs/api".

(** The links as the specification words them, read generously (a slash
    may close the tag or the base): the base, then a tag only after a
    slash, a summary only after [#], then the anchor. *)
Definition claimed_link (w : string) : Prop :=
  exists www sl1 tg sl2 su an,
    link_tail_ok tg su an /\
    w = base www
        ++ match tg with Some t => "/" ++ t ++ flag sl2 "/" | None => flag sl1 "/" end
        ++ match su with Some u => "#" ++ u | None => "" end
        ++ anchor_text an.

(** A character that is no delimiter. *)
Definition inside (c : ascii) : bool := negb (delimiter c).

(** ** A worked example: one account operation in both descriptions *)

Module Example.

Definition legacy_spec : OpenAPI.t :=
  {| OpenAPI.externalDocs := None;
     OpenAPI.paths :=
       [("/account",
         {| Path.get := Some {| Operation.summary := Some "Account View";
                                Operation.tags := Some ["Account"];
                                Operation.externalDocs := None;
                                Operation.path := ["paths"; "/account"; "get"] |};
            Path.put := None; Path.post := None; Path.delete := None |})] |}.

Definition new_spec : OpenAPI.t :=
  {| OpenAPI.externalDocs :=
       Some {| ExternalDocumentation.url := Some "https://techdocs.example/api" |};
     OpenAPI.paths :=
       [("/{apiVersion}/account",
         {| Path.get :=
              Some {| Operation.summary := Some "Get your account";
                      Operation.tags := Some ["Account"];
                      Operation.externalDocs :=
                        Some {| ExternalDocumentation.url :=
                                  Some "https://techdocs.example/get-account" |};
                      Operation.path := ["paths"; "/{apiVersion}/account"; "get"] |};
            Path.put := None; Path.post := None; Path.delete := None |})] |}.

Definition legacy_op : CondensedOperation.t :=
  {| CondensedOperation.summary := Some "Account View";
     CondensedOperation.tag := Some "Account";
     CondensedOperation.path := "/account";
     CondensedOperation.method := "get";
     CondensedOperation.external_docs_url := None |}.

Definition new_op : CondensedOperation.t :=
  {| CondensedOperation.summary := Some "Get your account";
     CondensedOperation.tag := Some "Account";
     CondensedOperation.path := "/{}/account";
     CondensedOperation.method := "get";
     CondensedOperation.external_docs_url :=
       Some "https://techdocs.example/get-account" |}.

(** What [URLTranslator(legacy_spec, new_spec)] holds. *)
Definition translator : URLTranslator.t :=
  {| _legacy_spec :=
       {| CondensedOpenAPI.root_docs_url := None;
          CondensedOpenAPI.paths := [(("/account", "get"), legacy_op)] |};
     _new_spec :=
       {| CondensedOpenAPI.root_docs_url := Some "https://techdocs.example/api";
          CondensedOpenAPI.paths := [(("/{}/account", "get"), new_op)] |};
     _legacy_op_map := [(("account", "account-view"), legacy_op)] |}.

(** A legacy description without paths, and what
    [URLTranslator(empty_spec, new_spec)] holds. *)
Definition empty_spec : OpenAPI.t :=
  {| OpenAPI.externalDocs := None; OpenAPI.paths := [] |}.

Definition bare : URLTranslator.t :=
  {| _legacy_spec :=
       {| CondensedOpenAPI.root_docs_url := None; CondensedOpenAPI.paths := [] |};
     _new_spec :=
       {| CondensedOpenAPI.root_docs_url := Some "https://techdocs.example/api";
          CondensedOpenAPI.paths := [(("/{}/account", "get"), new_op)] |};
     _legacy_op_map := [] |}.

Definition text : string :=
  "See https://www.linode.com/docs/api/account/#account-view and linode.com/docs/api.".

End Example.

(** ** A worked example of the command line *)

Module ExampleCli.

(** A pickle stream that is the translator itself. *)
Definition dumps (t : URLTranslator.t) : URLTranslator.t := t.
Definition loads (b : URLTranslator.t) : outcome exn URLTranslator.t := Return b.

Definition PICKLE_PATH : string := "specdata.bin".

Definition args : Namespace.t :=
  {| Namespace.path := ["a.md"; "b.md"];
     Namespace.write_changes := false;
     Namespace.force := false |}.

(** Two documents, and no baked translator yet. *)
Definition unbaked : world URLTranslator.t :=
  {| fs := fun p =>
       if String.eqb p "a.md" then Some (Text "linode.com/docs/api")
       else if String.eqb p "b.md" then Some (Text "nothing here")
       else None;
     io_log := []; stdout := []; console_stderr := [] |}.

(** The same after [bake], with a fresh log. *)
Definition baked : world URLTranslator.t :=
  {| fs := fs (pickle dumps Example.translator PICKLE_PATH unbaked);
     io_log := []; stdout := []; console_stderr := [] |}.

End ExampleCli.

(** ** Positions further into a subject *)

(** The same position of the matcher, and the same match, when [d] more
    characters come before. *)
Definition shift (d : nat) (st : Re.mstate) : Re.mstate :=
  {| Re.pos := Re.pos st + d; Re.rest := Re.rest st; Re.groups := Re.groups st |}.

Definition shift_match (d : nat) (m : Re.Match) : Re.Match :=
  {| Re.m_start := Re.m_start m + d; Re.m_end := Re.m_end m + d;
     Re.m_text := Re.m_text m; Re.m_groups := Re.m_groups m |}.

(** [{] and [}] in a path template. *)
Definition is_open (c : ascii) : bool := Char.only "{" c.
Definition is_close (c : ascii) : bool := Char.only "}" c.

(** ** What a call of [replace_urls] leaves behind *)

(** The entries appended for the matches [ms]: one for each match whose
    translation returned. *)
Definition recorded (self : URLTranslator.t) (target : string)
    (path : option string) (ms : list Re.Match) : list TranslationMeta.t :=
  flat_map (fun m => match translate self m with
                     | Return o => [match_meta target path m o]
                     | Raise _ => []
                     end) ms.

(** The warnings printed under [force]: one for each match whose
    translation raised a [TranslationError]. *)
Definition warnings (self : URLTranslator.t) (target : string)
    (path : option string) (ms : list Re.Match) : list exn :=
  flat_map (fun m => match translate self m with
                     | Raise (TranslationError msg _) =>
                         [TranslationError msg (Some (match_meta target path m None))]
                     | _ => []
                     end) ms.

(** The number of line separators in a text. *)
Definition newlines (s : string) : nat :=
  String.length (str_filter (Char.only Char.newline) s).

Definition no_newline (s : string) : bool :=
  str_forall (fun c => negb (Char.only Char.newline c)) s.

(** The link to an operation as the legacy documentation wrote it. *)
Definition canonical_link (www : bool) (tag summary : string) : string :=
  base www ++ "/" ++ tag ++ "/#" ++ summary.

(** The key [_build_op_map] files an operation under, if it files it. *)
Definition op_map_key (op : CondensedOperation.t) : option key :=
  match CondensedOperation.tag op, CondensedOperation.summary op with
  | Some t, Some s => Some (_flatten_path_for_url t, _flatten_path_for_url s)
  | _, _ => None
  end.

Definition filed_under (k : key) (op : CondensedOperation.t) : bool :=
  match op_map_key op with
  | Some k' => key_eqb k' k
  | None => false
  end.

(** An entry of the index sits under the key made of its own path and
    method. *)
Definition own_key (k : key) (c : CondensedOperation.t) : Prop :=
  k = (CondensedOperation.path c, CondensedOperation.method c).

(** The characters a flattened value can hold: lower-case letters, digits,
    the hyphen and the six characters between [Z] and [a]. *)
Definition flat_char (c : ascii) : bool :=
  Char.lower_az c || Char.digit09 c || Char.only "-" c || Char.between 91 96 c.

Definition flat (value : string) : bool := str_forall flat_char value.

(** ** The command line: [ConvertCommand.execute] *)

Module ConvertCommand.
Section WithPickle.
Variable blob : Type.
Variable loads : blob -> outcome exn URLTranslator.t.
Variable PICKLE_PATH : string.

(** [[translator.replace_urls(v)[0] for v in args.url]]: the arguments are
    translated from left to right, with the defaults [force=False] and
    [path=None]; the first exception ends the comprehension. *)
Fixpoint translated (translator : URLTranslator.t) (url : list string)
    (w : world blob) : outcome exn (list string) * world blob :=
  match url with
  | [] => (Return [], w)
  | v :: url' =>
      match replace_urls translator v false None with
      | (Raise e, warned) => (Raise e, console_print (map Warning warned) w)
      | (Return (text, _), warned) =>
          match translated translator url' (console_print (map Warning warned) w) with
          | (Return texts, w1) => (Return (text :: texts), w1)
          | (Raise e, w1) => (Raise e, w1)
          end
      end
  end.

(** [print(text)] writes the text, then the line end. *)
Definition print (text : string) (w : world blob) : world blob :=
  sys_stdout_write (String Char.newline "") (sys_stdout_write text w).

(** [ConvertCommand.execute], on [args.url] *)
Definition execute (url : list string) (w : world blob)
  : outcome exn unit * world blob :=
  match load_pickled loads PICKLE_PATH w with
  | (Raise e, w1) => (Raise e, w1)
  | (Return translator, w1) =>
      match translated translator url w1 with
      | (Raise e, w2) => (Raise e, w2)
      | (Return texts, w2) => (Return tt, print (String.concat " " texts) w2)
      end
  end.
End WithPickle.
End ConvertCommand.



(** * Properties of the matcher *)

Section StringFacts.

Lemma append_nil_r (s : string) : s ++ "" = s.
Proof. induction s; simpl; congruence. Qed.

Lemma append_assoc (a b c : string) : (a ++ b) ++ c = a ++ (b ++ c).
Proof. induction a; simpl; congruence. Qed.

Lemma length_append (a b : string) :
  String.length (a ++ b) = String.length a + String.length b.
Proof. induction a; simpl; congruence. Qed.

Lemma take_append (a b : string) : take (String.length a) (a ++ b) = a.
Proof. induction a; simpl; [destruct b; reflexivity | congruence]. Qed.

Lemma drop_append (a b : string) : drop (String.length a) (a ++ b) = b.
Proof. induction a; simpl; auto. Qed.

Lemma take_drop (n : nat) (s : string) : take n s ++ drop n s = s.
Proof.
  revert s; induction n; intros [|c s]; simpl; try reflexivity.
  now rewrite IHn.
Qed.

Lemma take_length (n : nat) (s : string) :
  n <= String.length s -> String.length (take n s) = n.
Proof.
  revert s; induction n; intros [|c s]; simpl; intros; try lia.
  rewrite IHn; lia.
Qed.

Lemma append_inv_head (a b c : string) : a ++ b = a ++ c -> b = c.
Proof. induction a; simpl; intros H; [assumption | injection H; auto]. Qed.

Lemma str_forall_append (p : ascii -> bool) (a b : string) :
  str_forall p (a ++ b) = str_forall p a && str_forall p b.
Proof. induction a; simpl; [reflexivity | now rewrite IHa, andb_assoc]. Qed.

End StringFacts.

Section MatcherFacts.

Lemma after_nil (st : Re.mstate) : after st "" (Re.rest st) [] = st.
Proof. destruct st; unfold after; simpl. now rewrite Nat.add_0_r. Qed.

Lemma after_after st w1 s1 g1 w2 s2 g2 :
  after (after st w1 s1 g1) w2 s2 g2 = after st (w1 ++ w2) s2 (g2 ++ g1)%list.
Proof.
  unfold after; simpl.
  now rewrite length_append, Nat.add_assoc, app_assoc.
Qed.

Lemma after_step st c w s' :
  after (Re.step st (w ++ s')) w s' [] = after st (String c w) s' [].
Proof. unfold after, Re.step; simpl. f_equal. lia. Qed.

Lemma one_sound p R st (k : Re.mstate -> option R) v :
  Re.one p st k = Some v ->
  exists c s', Re.rest st = String c s' /\ p c = true /\
               k (after st (String c "") s' []) = Some v.
Proof.
  unfold Re.one. destruct (Re.rest st) as [|c s']; [discriminate|].
  destruct (p c) eqn:Hp; [|discriminate].
  intros H. now exists c, s'.
Qed.

Lemma one_complete p R st (k : Re.mstate -> option R) c s' v :
  Re.rest st = String c s' -> p c = true ->
  k (after st (String c "") s' []) = Some v ->
  Re.one p st k = Some v.
Proof. unfold Re.one. intros -> Hp Hk. now rewrite Hp. Qed.

Lemma plus1_sound p R s : forall st (k : Re.mstate -> option R) v,
  Re.plus1 p s st k = Some v ->
  exists w s', s = w ++ s' /\ w <> "" /\ str_forall p w = true /\
               k (after st w s' []) = Some v.
Proof.
  induction s as [|c s IH]; simpl; intros st k v H; [discriminate|].
  destruct (p c) eqn:Hp; [|discriminate].
  destruct (Re.plus1 p s (Re.step st s) k) as [v'|] eqn:Hmore.
  - injection H as ->.
    destruct (IH _ _ _ Hmore) as (w & s' & -> & _ & Hw & Hk).
    exists (String c w), s'; simpl. rewrite Hp, Hw.
    rewrite after_step with (c := c) in Hk.
    repeat split; [discriminate | assumption].
  - exists (String c ""), s; simpl. rewrite Hp.
    repeat split; [discriminate | assumption].
Qed.

Lemma plus1_complete p R w : forall s' st (k : Re.mstate -> option R) v,
  w <> "" -> str_forall p w = true ->
  k (after st w s' []) = Some v ->
  exists v', Re.plus1 p (w ++ s') st k = Some v'.
Proof.
  induction w as [|c w IH]; intros s' st k v Hne Hall Hk; [congruence|].
  simpl in Hall. apply andb_prop in Hall as [Hp Hall].
  simpl. rewrite Hp.
  destruct (Re.plus1 p (w ++ s') (Re.step st (w ++ s')) k) as [v'|] eqn:Hmore;
    [now exists v'|].
  destruct w as [|c' w].
  - exists v. exact Hk.
  - exfalso. rewrite <- after_step in Hk.
    destruct (IH s' (Re.step st (String c' w ++ s')) k v) as [v' Hv'];
      [discriminate | assumption | assumption |].
    congruence.
Qed.

(** Whatever the matcher finds is a possibility of the pattern. *)
Lemma run_sound r : forall R st (k : Re.mstate -> option R) v,
  Re.run r st k = Some v ->
  exists w s' g, Re.rest st = w ++ s' /\ sem r w s' g /\
                 k (after st w s' g) = Some v.
Proof.
  induction r as [|c| |p|r1 IH1 r2 IH2|r1 IH1 r2 IH2|r1 IH1|p|name r1 IH1|r1 IH1|];
    intros R st k v H; simpl in H.
  - exists "", (Re.rest st), []. rewrite after_nil. now repeat split.
  - apply one_sound in H as (x & s' & Hr & Hx & Hk).
    apply Ascii.eqb_eq in Hx as ->.
    exists (String c ""), s', []. now repeat split.
  - apply one_sound in H as (x & s' & Hr & Hx & Hk).
    exists (String x ""), s', []. repeat split; try assumption.
    exists x; split; [reflexivity|].
    intros ->. unfold Char.only in Hx. now rewrite Ascii.eqb_refl in Hx.
  - apply one_sound in H as (x & s' & Hr & Hx & Hk).
    exists (String x ""), s', []. repeat split; try assumption. now exists x.
  - apply IH1 in H as (w1 & s1 & g1 & Hr1 & Hs1 & H).
    apply IH2 in H as (w2 & s2 & g2 & Hr2 & Hs2 & H).
    simpl in Hr2. subst s1. rewrite after_after in H.
    exists (w1 ++ w2), s2, (g2 ++ g1)%list.
    rewrite append_assoc. repeat split; try assumption.
    now exists w1, w2, g1, g2.
  - destruct (Re.run r1 st k) as [v'|] eqn:H1.
    + injection H as ->. apply IH1 in H1 as (w & s' & g & ? & ? & ?).
      exists w, s', g. simpl. auto.
    + apply IH2 in H as (w & s' & g & ? & ? & ?).
      exists w, s', g. simpl. auto.
  - destruct (Re.run r1 st k) as [v'|] eqn:H1.
    + injection H as ->. apply IH1 in H1 as (w & s' & g & ? & ? & ?).
      exists w, s', g. simpl. auto.
    + exists "", (Re.rest st), []. rewrite after_nil. simpl. auto.
  - apply plus1_sound in H as (w & s' & Hr & Hne & Hall & Hk).
    exists w, s', []. simpl. auto.
  - apply IH1 in H as (w & s' & g & Hr & Hs & Hk).
    exists w, s', ((name, w) :: g). repeat split; try assumption.
    + now exists g.
    + rewrite Hr in Hk. simpl in Hk.
      replace (Re.pos st + String.length w - Re.pos st) with (String.length w) in Hk
        by lia.
      now rewrite take_append in Hk.
  - destruct (Re.run r1 st (fun _ => Some tt)) eqn:H1; [|discriminate].
    apply IH1 in H1 as (w1 & s1 & g1 & Hr & Hs & _).
    exists "", (Re.rest st), []. rewrite after_nil. simpl.
    repeat split; try assumption. now exists w1, s1, g1.
  - exists "", (Re.rest st), []. rewrite after_nil. simpl.
    destruct (Re.rest st) as [|c s'] eqn:Hr; [auto|].
    destruct (Char.only Char.newline c) eqn:Hc; [|discriminate].
    apply Ascii.eqb_eq in Hc as ->. repeat split; try assumption.
    right. now exists s'.
Qed.

(** Every possibility of the pattern whose continuation succeeds makes
    the matcher succeed (with that possibility or one of higher priority). *)
Lemma run_complete r : forall R st (k : Re.mstate -> option R) w s' g v,
  Re.rest st = w ++ s' -> sem r w s' g ->
  k (after st w s' g) = Some v ->
  exists v', Re.run r st k = Some v'.
Proof.
  induction r as [|c| |p|r1 IH1 r2 IH2|r1 IH1 r2 IH2|r1 IH1|p|name r1 IH1|r1 IH1|];
    intros R st k w s' g v Hr Hs Hk; simpl in Hs; simpl.
  - destruct Hs as [-> ->]. simpl in Hr. rewrite <- Hr, after_nil in Hk. eauto.
  - destruct Hs as [-> ->]. exists v.
    eapply one_complete; eauto. apply Ascii.eqb_refl.
  - destruct Hs as [(x & -> & Hx) ->]. exists v.
    eapply one_complete; eauto.
    unfold Char.only. destruct (Ascii.eqb x Char.newline) eqn:E; [|reflexivity].
    apply Ascii.eqb_eq in E. contradiction.
  - destruct Hs as [(x & -> & Hx) ->]. exists v.
    eapply one_complete; eauto.
  - destruct Hs as (w1 & w2 & g1 & g2 & -> & -> & Hs1 & Hs2).
    rewrite append_assoc in Hr.
    rewrite <- after_after with (s1 := w2 ++ s') in Hk.
    destruct (IH2 R (after st w1 (w2 ++ s') g1) k w2 s' g2 v eq_refl Hs2 Hk)
      as [v2 H2].
    eapply IH1; eauto.
  - destruct (Re.run r1 st k) as [v1|] eqn:H1; [eauto|].
    destruct Hs as [Hs|Hs].
    + destruct (IH1 _ _ _ _ _ _ _ Hr Hs Hk). congruence.
    + eapply IH2; eauto.
  - destruct (Re.run r1 st k) as [v1|] eqn:H1; [eauto|].
    destruct Hs as [Hs|[-> ->]].
    + destruct (IH1 _ _ _ _ _ _ _ Hr Hs Hk). congruence.
    + simpl in Hr. rewrite <- Hr, after_nil in Hk. eauto.
  - destruct Hs as [[Hne Hall] ->]. rewrite Hr.
    eapply plus1_complete; eauto.
  - destruct Hs as (g1 & Hs & ->).
    eapply IH1; eauto. simpl.
    replace (Re.pos st + String.length w - Re.pos st) with (String.length w) by lia.
    rewrite Hr, take_append. exact Hk.
  - destruct Hs as [[-> ->] (w1 & s1 & g1 & -> & Hs)]. simpl in Hr.
    destruct (IH1 unit st (fun _ => Some tt) w1 s1 g1 tt Hr Hs eq_refl) as [[] H1].
    rewrite H1. rewrite <- Hr, after_nil in Hk. eauto.
  - destruct Hs as [[-> ->] Hs]. simpl in Hr.
    rewrite <- Hr, after_nil in Hk.
    destruct Hs as [Hs|[t Hs]]; rewrite Hs in Hr; rewrite Hr; [eauto|].
    unfold Char.only. rewrite Ascii.eqb_refl. eauto.
Qed.

End MatcherFacts.

Section MatchFacts.

Lemma sem_min_len r : forall w s' g, sem r w s' g -> min_len r <= String.length w.
Proof.
  induction r as [|c| |p|r1 IH1 r2 IH2|r1 IH1 r2 IH2|r1 IH1|p|name r1 IH1|r1 IH1|];
    simpl; intros w s' g H.
  - lia.
  - destruct H as [-> _]. simpl. lia.
  - destruct H as [(c & -> & _) _]. simpl. lia.
  - destruct H as [(c & -> & _) _]. simpl. lia.
  - destruct H as (w1 & w2 & g1 & g2 & -> & _ & H1 & H2).
    apply IH1 in H1. apply IH2 in H2. rewrite length_append. lia.
  - destruct H as [H|H]; [apply IH1 in H | apply IH2 in H]; lia.
  - lia.
  - destruct H as [[Hne _] _]. destruct w; [congruence | simpl; lia].
  - destruct H as (g1 & H & _). eauto.
  - lia.
  - lia.
Qed.

(** What a match object says about the subject. *)
Lemma match_at_inv r i s m :
  Re.match_at r i s = Some m ->
  exists w s', s = w ++ s' /\ sem r w s' (Re.m_groups m) /\
    Re.m_start m = i /\ Re.m_end m = i + String.length w /\ Re.m_text m = w.
Proof.
  unfold Re.match_at. intros H.
  apply run_sound in H as (w & s' & g & Hr & Hs & Hk). simpl in Hr, Hk.
  injection Hk as <-. simpl. exists w, s'.
  rewrite app_nil_r.
  replace (i + String.length w - i) with (String.length w) by lia.
  subst s. rewrite take_append. auto.
Qed.

Lemma match_at_complete r i w s' g :
  sem r w s' g -> exists m, Re.match_at r i (w ++ s') = Some m.
Proof.
  intros Hs. unfold Re.match_at.
  eapply run_complete with (w := w) (s' := s') (g := g); simpl; eauto.
Qed.

Lemma match_at_span r i s m :
  Re.match_at r i s = Some m ->
  Re.m_start m = i /\
  Re.m_start m + min_len r <= Re.m_end m /\
  Re.m_end m - Re.m_start m <= String.length s /\
  Re.m_text m = take (Re.m_end m - Re.m_start m) s.
Proof.
  intros H. apply match_at_inv in H as (w & s' & -> & Hs & H1 & H2 & H3).
  apply sem_min_len in Hs. rewrite H1, H2, H3, length_append.
  replace (i + String.length w - i) with (String.length w) by lia.
  rewrite take_append. repeat split; lia.
Qed.

(** No pattern of the program matches the empty string. *)
Lemma patterns_nonempty :
  0 < min_len URL_PATH_IDS_REGEX /\ 0 < min_len URL_PATH_REGEX /\
  0 < min_len Script.URL_PATH_REGEX /\ 0 < min_len LEGACY_URL_REGEX.
Proof. vm_compute. repeat split; lia. Qed.

End MatchFacts.

(** * Properties of [re.sub] *)

Section SubFacts.
Variables (St E : Type).
Variable r : Re.regex.
Variable handler : Re.Match -> St -> outcome E (option string) * St.

Lemma emit_Return t (res : outcome E string * St) u (st : St) :
  Sub.emit t res = (Return u, st) ->
  exists u' : string, res = (Return (E := E) u', st) /\ u = t ++ u'.
Proof.
  destruct res as [[u'|e] st']; simpl; intros H; inversion H; subst. eauto.
Qed.

Lemma emit_Raise t (res : outcome E string * St) e (st : St) :
  Sub.emit t res = (Raise e, st) -> res = (Raise (A := string) e, st).
Proof. destruct res as [[u'|e'] st']; simpl; intros H; inversion H; auto. Qed.

Hypothesis nonempty : 0 < min_len r.

Lemma go_rewritten s : forall i skip st t st',
  skip <= String.length s ->
  Sub.go r handler i s skip st = (Return t, st') ->
  rewritten r (put handler) (i + skip) (drop skip s) t.
Proof.
  induction s as [|c s IH]; intros i skip st t st' Hskip H; simpl in H.
  - simpl in Hskip. assert (skip = 0) as -> by lia.
    destruct (Re.match_at r i "") as [m|] eqn:Hm.
    + apply match_at_span in Hm as (_ & ? & Hlen & _). simpl in Hlen. lia.
    + inversion H; subst. simpl. constructor.
  - destruct skip as [|n].
    + rewrite Nat.add_0_r. simpl drop.
      destruct (Re.match_at r i (String c s)) as [m|] eqn:Hm.
      * destruct (handler m st) as [[o|e] st1] eqn:Hh; [|discriminate].
        pose proof (match_at_span _ _ _ Hm) as (Hst & Hmin & Hlen & Htxt).
        destruct (Re.m_end m - Re.m_start m) as [|n] eqn:Hn; [lia|].
        apply emit_Return in H as (u & H & ->).
        apply IH in H; [|simpl in Hlen; lia].
        apply rw_match with (m := m).
        -- exact Hm.
        -- exact Hst.
        -- lia.
        -- rewrite Hn. exact Hlen.
        -- rewrite Hn. exact Htxt.
        -- now exists st, st1.
        -- rewrite Hn. replace (Re.m_end m) with (S i + n) by lia. exact H.
      * apply emit_Return in H as (u & H & ->).
        apply IH in H; [|lia]. rewrite Nat.add_0_r in H. simpl in H.
        destruct s; simpl in H; now constructor.
    + simpl in Hskip. apply IH in H; [|lia].
      replace (i + S n) with (S i + n) by lia. exact H.
Qed.
End SubFacts.

Section SubOutcome.
Variables (St E : Type).
Variable r : Re.regex.
Variable handler : Re.Match -> St -> outcome E (option string) * St.

(** An exception that escapes [sub] was raised by the handler at one of
    the matches. *)
Lemma go_raise_sound s : forall i skip st e st',
  Sub.go r handler i s skip st = (Raise e, st') ->
  exists m st0, In m (finditer r i s skip) /\ handler m st0 = (Raise e, st').
Proof.
  induction s as [|c s IH]; intros i skip st e st' H; simpl in H |- *.
  - destruct skip; [|discriminate].
    destruct (Re.match_at r i "") as [m|]; [|discriminate].
    destruct (handler m st) as [[o|e'] st1] eqn:Hh; inversion H; subst.
    exists m, st. simpl. auto.
  - destruct skip as [|n]; [|eauto].
    destruct (Re.match_at r i (String c s)) as [m|].
    + destruct (handler m st) as [[o|e'] st1] eqn:Hh.
      * destruct (Re.m_end m - Re.m_start m) as [|n];
          apply emit_Raise in H; apply IH in H as (m' & st0 & Hin & Hr);
          exists m', st0; simpl; auto.
      * inversion H; subst. exists m, st. simpl. auto.
    + apply emit_Raise in H. eauto.
Qed.

(** A match at which the handler always raises stops the substitution,
    there or earlier. *)
Lemma go_raise_complete s : forall i skip st m,
  In m (finditer r i s skip) ->
  (forall st0, exists e st1, handler m st0 = (Raise e, st1)) ->
  exists e st', Sub.go r handler i s skip st = (Raise e, st').
Proof.
  induction s as [|c s IH]; intros i skip st m Hin Hm; simpl in Hin |- *.
  - destruct skip; [|contradiction].
    destruct (Re.match_at r i "") as [m0|]; [|contradiction].
    destruct Hin as [->|[]]. destruct (Hm st) as (e & st1 & ->). eauto.
  - destruct skip as [|n]; [|eauto].
    destruct (Re.match_at r i (String c s)) as [m0|].
    + destruct (handler m0 st) as [[o|e'] st1] eqn:Hh; [|eauto].
      destruct Hin as [->|Hin].
      * destruct (Hm st) as (e & st2 & Hr). congruence.
      * destruct (Re.m_end m0 - Re.m_start m0) as [|n]; simpl in Hin;
          destruct (IH _ _ st1 _ Hin Hm) as (e & st' & ->); simpl; eauto.
    + destruct (IH _ _ st _ Hin Hm) as (e & st' & ->). simpl. eauto.
Qed.

(** When the handler returns at every match, so does [sub]. *)
Lemma go_return s : forall i skip st,
  (forall m, In m (finditer r i s skip) ->
     forall st0, exists o st1, handler m st0 = (Return o, st1)) ->
  exists t st', Sub.go r handler i s skip st = (Return t, st').
Proof.
  induction s as [|c s IH]; intros i skip st Hall; simpl in Hall |- *.
  - destruct skip; [|eauto].
    destruct (Re.match_at r i "") as [m|]; [|eauto].
    destruct (Hall m (or_introl eq_refl) st) as (o & st1 & ->). eauto.
  - destruct skip as [|n]; [|eauto].
    destruct (Re.match_at r i (String c s)) as [m|].
    + destruct (Hall m (or_introl eq_refl) st) as (o & st1 & ->).
      destruct (Re.m_end m - Re.m_start m) as [|n]; simpl in Hall;
        destruct (IH (S i) _ st1 (fun m' H => Hall m' (or_intror H)))
          as (t & st' & ->); simpl; eauto.
    + destruct (IH (S i) 0 st Hall) as (t & st' & ->). simpl. eauto.
Qed.
End SubOutcome.

(** * The resolver *)

Section ResolverFacts.
Variable self : URLTranslator.t.

Lemma first_with_tag_cases d t :
  (exists lop, first_with_tag d t = Return lop) \/
  first_with_tag d t = Raise StopIteration.
Proof.
  unfold first_with_tag.
  destruct (find _ _) as [[k op]|]; eauto.
Qed.

(** After a legacy operation is found, the rest of the translation. *)
Lemma translate_resolved_cases m lop :
  resolves self m lop ->
  match Dict.get key_eqb (CondensedOpenAPI.paths (_new_spec self))
          (equivalent_key lop) with
  | None => translate self m
            = Raise (TranslationError (PathNotFound (equivalent_key lop)) None)
  | Some nop =>
      match CondensedOperation.external_docs_url nop with
      | None => translate self m = Raise (TranslationError (NoExternalDocs nop) None)
      | Some u => translate self m = Return (Some u)
      end
  end.
Proof.
  intros (t & Ht & Hs).
  unfold translate, _translate_from_components, components_of; simpl.
  rewrite Ht.
  assert (Hop : match Re.group m "summary" with
                | Some summary =>
                    match Dict.get key_eqb (_legacy_op_map self) (t, summary) with
                    | Some op => Return op
                    | None => Raise (TranslationError
                                (PairNotFound (Some t, Re.group m "summary")) None)
                    end
                | None => first_with_tag (_legacy_op_map self) t
                end = Return lop).
  { destruct (Re.group m "summary"); [now rewrite Hs | assumption]. }
  destruct (Re.group m "summary") as [s|]; rewrite Hop; simpl;
    unfold get_equivalent_operation;
    destruct (Dict.get key_eqb _ (equivalent_key lop)) as [nop|]; simpl;
    try reflexivity;
    destruct (CondensedOperation.external_docs_url nop); reflexivity.
Qed.

Lemma translate_no_tag m :
  Re.group m "tag" = None ->
  translate self m = Return (CondensedOpenAPI.root_docs_url (_new_spec self)).
Proof.
  intros H. unfold translate, _translate_from_components, components_of; simpl.
  now rewrite H.
Qed.

Lemma translate_pair_absent m :
  pair_absent self m ->
  exists msg, translate self m = Raise (TranslationError msg None).
Proof.
  intros (t & s & Ht & Hs & Hget).
  unfold translate, _translate_from_components, components_of; simpl.
  rewrite Ht, Hs, Hget. simpl. eauto.
Qed.

Lemma translate_tag_only_miss m :
  tag_only_miss self m -> translate self m = Raise StopIteration.
Proof.
  intros (t & Ht & Hs & Hf).
  unfold translate, _translate_from_components, components_of; simpl.
  now rewrite Ht, Hs, Hf.
Qed.

(** Every match falls in exactly one of these classes. *)
Lemma match_classes m :
  Re.group m "tag" = None \/ tag_only_miss self m \/ pair_absent self m \/
  exists lop, resolves self m lop.
Proof.
  destruct (Re.group m "tag") as [t|] eqn:Ht; [|auto].
  destruct (Re.group m "summary") as [s|] eqn:Hs.
  - destruct (Dict.get key_eqb (_legacy_op_map self) (t, s)) as [lop|] eqn:Hget.
    + right; right; right. exists lop, t. now rewrite Hs.
    + right; right; left. now exists t, s.
  - destruct (first_with_tag_cases (_legacy_op_map self) t) as [[lop Hf]|Hf].
    + right; right; right. exists lop, t. now rewrite Hs.
    + right; left. now exists t.
Qed.

(** A [TranslationError] has one of three causes. *)
Lemma translate_error_inv m msg meta :
  translate self m = Raise (TranslationError msg meta) ->
  pair_absent self m \/ new_path_absent self m \/ new_docs_absent self m.
Proof.
  intros H.
  destruct (match_classes m) as [Hn|[Hm|[Ha|[lop Hr]]]].
  - rewrite translate_no_tag in H by assumption. discriminate.
  - rewrite translate_tag_only_miss in H by assumption. discriminate.
  - auto.
  - pose proof (translate_resolved_cases Hr) as Hc.
    destruct (Dict.get key_eqb _ (equivalent_key lop)) as [nop|] eqn:Hget.
    + destruct (CondensedOperation.external_docs_url nop) eqn:Hu.
      * congruence.
      * right; right. now exists lop, nop.
    + right; left. now exists lop.
Qed.

Lemma translate_error_intro m :
  pair_absent self m \/ new_path_absent self m \/ new_docs_absent self m ->
  exists msg, translate self m = Raise (TranslationError msg None).
Proof.
  intros [Ha|[(lop & Hr & Hget)|(lop & nop & Hr & Hget & Hu)]].
  - now apply translate_pair_absent.
  - pose proof (translate_resolved_cases Hr) as Hc. rewrite Hget in Hc. eauto.
  - pose proof (translate_resolved_cases Hr) as Hc. rewrite Hget, Hu in Hc. eauto.
Qed.

(** Any other exception is the [StopIteration] of a tag-only miss. *)
Lemma translate_other_inv m e :
  translate self m = Raise e ->
  (forall msg meta, e <> TranslationError msg meta) ->
  e = StopIteration /\ tag_only_miss self m.
Proof.
  intros H Hne.
  destruct (match_classes m) as [Hn|[Hm|[Ha|[lop Hr]]]].
  - rewrite translate_no_tag in H by assumption. discriminate.
  - split; [|assumption].
    rewrite translate_tag_only_miss in H by assumption. congruence.
  - destruct (translate_pair_absent Ha) as [msg Hmsg].
    rewrite Hmsg in H. injection H as <-. now destruct (Hne msg None).
  - pose proof (translate_resolved_cases Hr) as Hc.
    destruct (Dict.get key_eqb _ (equivalent_key lop)) as [nop|].
    + destruct (CondensedOperation.external_docs_url nop).
      * congruence.
      * rewrite Hc in H. injection H as <-. now destruct (Hne (NoExternalDocs nop) None).
    + rewrite Hc in H. injection H as <-.
      now destruct (Hne (PathNotFound (equivalent_key lop)) None).
Qed.
End ResolverFacts.

(** * [replace_urls] *)

Section ReplaceFacts.
Variables (self : URLTranslator.t) (target : string) (force : bool)
          (path : option string).

(** The three ways of the handler: a translation is recorded and put in
    place; a [TranslationError] is raised with the metadata injected, or,
    under [force], printed while the matched text stays; anything else
    escapes. *)
Lemma handler_cases m st :
  _sub_handler self target force path m st =
  match translate self m with
  | Return o =>
      (Return o,
       {| replacements := replacements st ++ [match_meta target path m o];
          stderr := stderr st |})
  | Raise (TranslationError msg _) =>
      let err := TranslationError msg (Some (match_meta target path m None)) in
      if force
      then (Return (Some (Re.m_text m)),
            {| replacements := replacements st; stderr := stderr st ++ [err] |})
      else (Raise err, st)
  | Raise e => (Raise e, st)
  end.
Proof.
  unfold _sub_handler, translate, match_meta.
  destruct (_translate_from_components self (components_of m)) as [o|[]];
    try reflexivity.
  now destruct force.
Qed.

Lemma put_inv m o :
  put (_sub_handler self target force path) m o ->
  translate self m = Return o \/
  (force = true /\ o = Some (Re.m_text m) /\
   exists msg meta, translate self m = Raise (TranslationError msg meta)).
Proof.
  intros (st0 & st1 & H). rewrite handler_cases in H.
  destruct (translate self m) as [o'|[]]; try discriminate.
  - left. congruence.
  - right. destruct force; [|discriminate].
    inversion H; subst. eauto.
Qed.

Lemma legacy_nonempty : 0 < min_len LEGACY_URL_REGEX.
Proof. apply patterns_nonempty. Qed.

Lemma replace_urls_rewritten text reps warned :
  replace_urls self target force path = (Return (text, reps), warned) ->
  rewritten LEGACY_URL_REGEX (put (_sub_handler self target force path))
    0 target text.
Proof.
  unfold replace_urls, Sub.sub. intros H.
  destruct (Sub.go _ _ 0 target 0 _) as [[t|e] st] eqn:Hgo; inversion H; subst.
  apply go_rewritten in Hgo; [exact Hgo | exact legacy_nonempty | lia].
Qed.

Lemma replace_urls_raise_inv e warned :
  replace_urls self target force path = (Raise e, warned) ->
  exists m st0 st1, In m (finditer LEGACY_URL_REGEX 0 target 0) /\
    _sub_handler self target force path m st0 = (Raise e, st1).
Proof.
  unfold replace_urls, Sub.sub. intros H.
  destruct (Sub.go _ _ 0 target 0 _) as [[t|e'] st] eqn:Hgo; inversion H; subst.
  apply go_raise_sound in Hgo as (m & st0 & Hin & Hh). eauto.
Qed.
End ReplaceFacts.

(** The example translators are what the constructor builds. *)
Lemma example_translators_built :
  __init__ valid_paths Example.legacy_spec Example.new_spec
  = Return Example.translator /\
  __init__ valid_paths Example.empty_spec Example.new_spec = Return Example.bare.
Proof. split; vm_compute; reflexivity. Qed.

Lemma rewritten_impl r (P Q : Re.Match -> option string -> Prop) i s t :
  (forall m o, P m o -> Q m o) -> rewritten r P i s t -> rewritten r Q i s t.
Proof.
  intros HPQ H. induction H.
  - constructor.
  - now constructor.
  - eapply rw_match; eauto.
Qed.

(** C3. Whatever text [replace_urls] returns is the input with the
    leftmost, non-overlapping matches of the legacy-URL pattern rewritten;
    every character outside those spans is copied, in place and in order. *)
Theorem replace_urls_frame self target force path text reps warned :
  replace_urls self target force path = (Return (text, reps), warned) ->
  rewritten LEGACY_URL_REGEX (fun _ _ => True) 0 target text.
Proof.
  intros H. apply replace_urls_rewritten in H.
  eapply rewritten_impl; [|exact H]. auto.
Qed.

Lemma replace_urls_frame_witness :
  rewritten LEGACY_URL_REGEX (fun _ _ => True) 0 Example.text
    "See https://techdocs.example/get-account and linode.com/docs/api.".
Proof.
  eapply (@replace_urls_frame Example.translator Example.text false None).
  vm_compute. reflexivity.
Defined.

(** C1 (amended). In the text [replace_urls] returns, a matched URL with a
    tag and a summary whose pair, exactly as matched, is a key of the legacy
    operation map has been replaced by the external-docs URL of the new-spec
    operation under the key (["/{}"] followed by the legacy path, the legacy
    method), whenever the new spec has that operation and it has such a URL. *)
Theorem replace_urls_resolved self target force path text reps warned :
  replace_urls self target force path = (Return (text, reps), warned) ->
  rewritten LEGACY_URL_REGEX
    (fun m o =>
       forall t s lop nop u,
         Re.group m "tag" = Some t -> Re.group m "summary" = Some s ->
         Dict.get key_eqb (_legacy_op_map self) (t, s) = Some lop ->
         Dict.get key_eqb (CondensedOpenAPI.paths (_new_spec self))
           ("/{}" ++ CondensedOperation.path lop, CondensedOperation.method lop)
         = Some nop ->
         CondensedOperation.external_docs_url nop = Some u ->
         o = Some u)
    0 target text.
Proof.
  intros H. apply replace_urls_rewritten in H.
  eapply rewritten_impl; [|exact H].
  intros m o Hput t s lop nop u Ht Hs Hl Hn Hu.
  assert (Hr : resolves self m lop) by (exists t; now rewrite Hs).
  pose proof (translate_resolved_cases Hr) as Hc.
  unfold equivalent_key in Hc. rewrite Hn, Hu in Hc.
  apply put_inv in Hput as [Hp|(_ & _ & msg & meta & Hp)]; congruence.
Qed.

Lemma replace_urls_resolved_witness :
  rewritten LEGACY_URL_REGEX
    (fun m o =>
       forall t s lop nop u,
         Re.group m "tag" = Some t -> Re.group m "summary" = Some s ->
         Dict.get key_eqb (_legacy_op_map Example.translator) (t, s) = Some lop ->
         Dict.get key_eqb (CondensedOpenAPI.paths (_new_spec Example.translator))
           ("/{}" ++ CondensedOperation.path lop, CondensedOperation.method lop)
         = Some nop ->
         CondensedOperation.external_docs_url nop = Some u ->
         o = Some u)
    0 Example.text
    "See https://techdocs.example/get-account and linode.com/docs/api.".
Proof.
  eapply (@replace_urls_resolved Example.translator Example.text false None).
  vm_compute. reflexivity.
Defined.

(** C1, as stated, fails: the URL below has tag [Account] and summary
    [Account-View]; their flattened pair is a key of the legacy operation
    map and the new spec documents the operation under the derived key, yet
    the map is asked for the pair as matched, which is no key: nothing is
    substituted. *)
Lemma replace_urls_flattened_pair_counterexample :
  let target := "linode.com/docs/api/Account/#Account-View" in
  let T := Example.translator in
  (exists m, Re.match_at LEGACY_URL_REGEX 0 target = Some m /\
     Re.m_text m = target /\
     Re.group m "tag" = Some "Account" /\
     Re.group m "summary" = Some "Account-View") /\
  Dict.get key_eqb (_legacy_op_map T)
    (_flatten_path_for_url "Account", _flatten_path_for_url "Account-View")
  = Some Example.legacy_op /\
  Dict.get key_eqb (CondensedOpenAPI.paths (_new_spec T))
    ("/{}" ++ CondensedOperation.path Example.legacy_op,
     CondensedOperation.method Example.legacy_op)
  = Some Example.new_op /\
  CondensedOperation.external_docs_url Example.new_op
  = Some "https://techdocs.example/get-account" /\
  (exists meta,
     replace_urls T target false None
     = (Raise (TranslationError
                 (PairNotFound (Some "Account", Some "Account-View")) meta), [])) /\
  (exists w, replace_urls T target true None = (Return (target, []), [w])).
Proof.
  vm_compute. repeat split; eauto.
Qed.

(** C8. In the text [replace_urls] returns, a matched URL without a tag has
    been replaced by the root external-docs URL of the new spec; the
    translation of such a URL is that URL whatever the legacy operation map
    holds. *)
Theorem replace_urls_root self target force path text reps warned root :
  replace_urls self target force path = (Return (text, reps), warned) ->
  CondensedOpenAPI.root_docs_url (_new_spec self) = Some root ->
  rewritten LEGACY_URL_REGEX
    (fun m o => Re.group m "tag" = None -> o = Some root) 0 target text /\
  forall legacy op_map c,
    LegacyURLComponents.tag c = None ->
    _translate_from_components
      {| _legacy_spec := legacy; _new_spec := _new_spec self;
         _legacy_op_map := op_map |} c
    = Return (Some root).
Proof.
  intros H Hroot. split.
  - apply replace_urls_rewritten in H.
    eapply rewritten_impl; [|exact H].
    intros m o Hput Ht.
    pose proof (translate_no_tag self m Ht) as Hn.
    apply put_inv in Hput as [Hp|(_ & _ & msg & meta & Hp)]; congruence.
  - intros legacy op_map c Hc. unfold _translate_from_components.
    rewrite Hc. simpl. now rewrite Hroot.
Qed.

Lemma replace_urls_root_witness :
  rewritten LEGACY_URL_REGEX
    (fun m o => Re.group m "tag" = None -> o = Some "https://techdocs.example/api")
    0 "see linode.com/docs/api now" "see https://techdocs.example/api now" /\
  forall legacy op_map c,
    LegacyURLComponents.tag c = None ->
    _translate_from_components
      {| _legacy_spec := legacy; _new_spec := _new_spec Example.bare;
         _legacy_op_map := op_map |} c
    = Return (Some "https://techdocs.example/api").
Proof.
  eapply (@replace_urls_root Example.bare "see linode.com/docs/api now" false None).
  - vm_compute. reflexivity.
  - reflexivity.
Defined.

Section ReplaceOutcome.
Variables (self : URLTranslator.t) (target : string) (path : option string).

Lemma replace_urls_raise_complete force m :
  In m (finditer LEGACY_URL_REGEX 0 target 0) ->
  (forall st0, exists e st1,
      _sub_handler self target force path m st0 = (Raise e, st1)) ->
  exists e warned, replace_urls self target force path = (Raise e, warned).
Proof.
  intros Hin Hm. unfold replace_urls, Sub.sub.
  destruct (go_raise_complete _ _ _ 0 0
              {| replacements := []; stderr := [] |} _ Hin Hm) as (e & st' & ->).
  eauto.
Qed.

(** Under [force], unless some match is a tag-only miss, the call returns. *)
Lemma replace_urls_force_returns :
  (forall m, In m (finditer LEGACY_URL_REGEX 0 target 0) ->
             ~ tag_only_miss self m) ->
  exists text reps warned,
    replace_urls self target true path = (Return (text, reps), warned).
Proof.
  intros Hno. unfold replace_urls, Sub.sub.
  destruct (go_return LEGACY_URL_REGEX (_sub_handler self target true path)
              target 0 0 {| replacements := []; stderr := [] |})
    as (t & st' & ->); [|eauto].
  intros m Hin st0. rewrite handler_cases.
  destruct (translate self m) as [o|e] eqn:Ht; [eauto|].
  destruct e; simpl; eauto;
    destruct (translate_other_inv self m Ht) as [E Hmiss];
    try (intros; discriminate); try discriminate;
    now destruct (Hno m Hin).
Qed.
End ReplaceOutcome.

(** C4 (amended). Without [force], and provided no matched URL is a tag
    without a summary under which the legacy map files nothing (that case
    ends in [StopIteration]), [replace_urls] raises a [TranslationError]
    exactly when some matched URL has (a) a tag and a summary whose pair, as
    matched, is no key of the legacy operation map, or (b) resolves to a
    legacy operation whose derived key is no key of the new path index, or
    (c) resolves to a new-spec operation without an external-docs URL. *)
Theorem replace_urls_translation_error self target path :
  (forall m, In m (finditer LEGACY_URL_REGEX 0 target 0) ->
             ~ tag_only_miss self m) ->
  (exists msg meta warned,
     replace_urls self target false path
     = (Raise (TranslationError msg meta), warned))
  <->
  (exists m, In m (finditer LEGACY_URL_REGEX 0 target 0) /\
     (pair_absent self m \/ new_path_absent self m \/ new_docs_absent self m)).
Proof.
  intros Hno. split.
  - intros (msg & meta & warned & H).
    apply replace_urls_raise_inv in H as (m & st0 & st1 & Hin & Hh).
    exists m. split; [assumption|].
    rewrite handler_cases in Hh.
    destruct (translate self m) as [o|e] eqn:Ht; [discriminate|].
    destruct e; try discriminate.
    eapply translate_error_inv; eauto.
  - intros (m & Hin & Hc).
    destruct (translate_error_intro Hc) as [msg Hmsg].
    destruct (replace_urls_raise_complete self target path false m Hin)
      as (e & warned & He).
    { intros st0. rewrite handler_cases, Hmsg. simpl. eauto. }
    pose proof He as He'.
    apply replace_urls_raise_inv in He' as (m' & st0 & st1 & Hin' & Hh).
    rewrite handler_cases in Hh.
    destruct (translate self m') as [o|e'] eqn:Ht; [discriminate|].
    destruct e'; simpl in Hh; inversion Hh; subst; eauto;
      destruct (translate_other_inv self m' Ht) as [_ Hmiss];
      try (intros; discriminate);
      now destruct (Hno m' Hin').
Qed.

Lemma replace_urls_translation_error_witness :
  (exists msg meta warned,
     replace_urls Example.translator "linode.com/docs/api/account/#nope" false None
     = (Raise (TranslationError msg meta), warned))
  <->
  (exists m,
     In m (finditer LEGACY_URL_REGEX 0 "linode.com/docs/api/account/#nope" 0) /\
     (pair_absent Example.translator m \/ new_path_absent Example.translator m \/
      new_docs_absent Example.translator m)).
Proof.
  apply (@replace_urls_translation_error Example.translator
           "linode.com/docs/api/account/#nope" None).
  assert (E : finditer LEGACY_URL_REGEX 0 "linode.com/docs/api/account/#nope" 0
              = [{| Re.m_start := 0; Re.m_end := 33;
                    Re.m_text := "linode.com/docs/api/account/#nope";
                    Re.m_groups := [("summary", "nope"); ("tag", "account")] |}])
    by (vm_compute; reflexivity).
  rewrite E. intros m [<-|[]] (t & Ht & Hs & _). discriminate.
Defined.

(** C4, as stated, fails twice over. First URL: its flattened pair is a key
    of the legacy map and the operation behind it is documented in the new
    spec, so none of (a), (b), (c) holds of it, yet a [TranslationError] is
    raised, the pair as matched being no key. Second text: its second URL
    has a tag and a summary whose pair is no key, flattened or not, yet what
    escapes is the [StopIteration] of the URL before it. *)
Lemma replace_urls_translation_error_counterexample :
  (let target := "linode.com/docs/api/Account/#Account-View" in
   let T := Example.translator in
   finditer LEGACY_URL_REGEX 0 target 0
   = [{| Re.m_start := 0; Re.m_end := 41; Re.m_text := target;
         Re.m_groups := [("summary", "Account-View"); ("tag", "Account")] |}] /\
   Dict.get key_eqb (_legacy_op_map T)
     (_flatten_path_for_url "Account", _flatten_path_for_url "Account-View")
   = Some Example.legacy_op /\
   Dict.get key_eqb (CondensedOpenAPI.paths (_new_spec T))
     (equivalent_key Example.legacy_op) = Some Example.new_op /\
   CondensedOperation.external_docs_url Example.new_op <> None /\
   exists meta,
     replace_urls T target false None
     = (Raise (TranslationError
                 (PairNotFound (Some "Account", Some "Account-View")) meta), []))
  /\
  (let target := "linode.com/docs/api/nope linode.com/docs/api/foo/#bar" in
   let T := Example.bare in
   (exists m, In m (finditer LEGACY_URL_REGEX 0 target 0) /\
      Re.group m "tag" = Some "foo" /\ Re.group m "summary" = Some "bar" /\
      Dict.get key_eqb (_legacy_op_map T)
        (_flatten_path_for_url "foo", _flatten_path_for_url "bar") = None /\
      Dict.get key_eqb (_legacy_op_map T) ("foo", "bar") = None) /\
   replace_urls T target false None = (Raise StopIteration, [])).
Proof.
  split.
  - vm_compute. repeat split; eauto. discriminate.
  - split; [|vm_compute; reflexivity].
    eexists. split; [vm_compute; right; left; reflexivity|].
    vm_compute. repeat split.
Qed.

(** C2: the code at the failing input. With [force=True] the URL below,
    whose tag the legacy map does not know and which has no summary, is not
    skipped with a warning: [next(...)] finds nothing and its
    [StopIteration], which is no [TranslationError], escapes the call. *)
Theorem replace_urls_force_stop_iteration :
  let target := "linode.com/docs/api/nope" in
  (exists m, finditer LEGACY_URL_REGEX 0 target 0 = [m] /\
     Re.m_text m = target /\
     Re.group m "tag" = Some "nope" /\ Re.group m "summary" = None /\
     translate Example.bare m = Raise StopIteration) /\
  replace_urls Example.bare target true None = (Raise StopIteration, []).
Proof.
  vm_compute. split; [|reflexivity].
  eexists. repeat split.
Qed.

(** * The normalizer *)

Section DictFacts.
Variables (K V : Type) (eqb : K -> K -> bool).
Hypothesis eqb_spec : forall a b, eqb a b = true <-> a = b.

Lemma eqb_refl_ k : eqb k k = true.
Proof. now apply eqb_spec. Qed.

Lemma get_set (d : Dict.t K V) k v k' :
  Dict.get eqb (Dict.set eqb d k v) k' =
  if eqb k k' then Some v else Dict.get eqb d k'.
Proof.
  induction d as [|[k0 v0] d IH]; simpl.
  - reflexivity.
  - destruct (eqb k0 k) eqn:E0; simpl.
    + apply eqb_spec in E0 as ->. now destruct (eqb k k').
    + rewrite IH. destruct (eqb k0 k') eqn:E1; [|reflexivity].
      apply eqb_spec in E1 as ->.
      destruct (eqb k k') eqn:E2; [|reflexivity].
      apply eqb_spec in E2 as ->. rewrite eqb_refl_ in E0. discriminate.
Qed.

Lemma mem_set (d : Dict.t K V) k v k' :
  Dict.mem eqb (Dict.set eqb d k v) k' = true <->
  k' = k \/ Dict.mem eqb d k' = true.
Proof.
  unfold Dict.mem. rewrite get_set.
  destruct (eqb k k') eqn:E.
  - apply eqb_spec in E as ->. tauto.
  - split; [tauto|]. intros [->|H]; [|assumption].
    rewrite eqb_refl_ in E. discriminate.
Qed.

Lemma values_set (d : Dict.t K V) k v x :
  In x (Dict.values (Dict.set eqb d k v)) -> x = v \/ In x (Dict.values d).
Proof.
  unfold Dict.values. induction d as [|[k0 v0] d IH]; simpl.
  - intros [<-|[]]. auto.
  - destruct (eqb k0 k); simpl; intros [<-|H]; auto.
    apply IH in H. tauto.
Qed.
End DictFacts.

Lemma key_eqb_spec (a b : key) : key_eqb a b = true <-> a = b.
Proof.
  destruct a as [a1 a2], b as [b1 b2]. unfold key_eqb; simpl.
  rewrite andb_true_iff, !String.eqb_eq. split.
  - intros [-> ->]. reflexivity.
  - intros H. inversion H. auto.
Qed.

Section NormalizerFacts.

Lemma getattr_valid p v :
  In v valid_paths -> exists o, getattr p v = Return o.
Proof.
  unfold valid_paths, getattr. simpl.
  intros [<-|[<-|[<-|[<-|[]]]]]; simpl; eauto.
Qed.

Lemma getattrs_ok p order :
  (forall v, In v order -> In v valid_paths) ->
  exists os, getattrs p order = Return os /\
    forall o, In o os <-> exists v, In v order /\ getattr p v = Return o.
Proof.
  induction order as [|v vs IH]; intros Hv; simpl.
  - exists []. split; [reflexivity|]. simpl. split; [tauto|]. intros (v & [] & _).
  - destruct (getattr_valid p (Hv v (or_introl eq_refl))) as [o Ho].
    destruct IH as (os & Hos & Hin); [intros; apply Hv; now right|].
    rewrite Ho, Hos. simpl. exists (o :: os). split; [reflexivity|].
    intros o'. simpl. rewrite Hin. split.
    + intros [<-|(v' & Hv' & Hg)]; eauto.
    + intros (v' & [<-|Hv'] & Hg); [left; congruence | right; eauto].
Qed.

Lemma from_operation_placed op k v :
  Operation.path op = ["paths"; k; v] ->
  exists c, from_operation op = Return c /\
    CondensedOperation.path c = _strip_url_ids k /\
    CondensedOperation.method c = v /\
    CondensedOperation.summary c = Operation.summary op /\
    CondensedOperation.tag c =
      match Operation.tags op with Some (t :: _) => Some t | _ => None end.
Proof.
  intros H. unfold from_operation. rewrite H. simpl.
  eexists. split; [reflexivity|]. simpl. repeat split.
Qed.

(** The inner loop: every operation is indexed, under its own key. *)
Lemma index_ops_spec os : forall paths,
  (forall op, In (Some op) os -> exists c, from_operation op = Return c) ->
  exists paths', index_ops os paths = Return paths' /\
    (forall k, Dict.mem key_eqb paths' k = true <->
       Dict.mem key_eqb paths k = true \/
       exists op c, In (Some op) os /\ from_operation op = Return c /\
         k = (CondensedOperation.path c, CondensedOperation.method c)) /\
    (forall x, In x (Dict.values paths') ->
       In x (Dict.values paths) \/
       exists op, In (Some op) os /\ from_operation op = Return x).
Proof.
  induction os as [|[op|] os IH]; intros paths Hok; simpl.
  - exists paths. split; [reflexivity|]. split.
    + intros k. split; [tauto|]. intros [H|(op & c & [] & _)]. assumption.
    + tauto.
  - destruct (Hok op (or_introl eq_refl)) as [c Hc]. rewrite Hc. simpl.
    destruct (IH (Dict.set key_eqb paths
                    (CondensedOperation.path c, CondensedOperation.method c) c))
      as (paths' & Hp & Hk & Hv); [intros; apply Hok; now right|].
    exists paths'. split; [exact Hp|]. split.
    + intros k. rewrite Hk, (@mem_set _ _ _ key_eqb_spec). split.
      * intros [[->|H]|(op' & c' & Hin & Hf & ->)]; eauto 8.
      * intros [H|(op' & c' & [E|Hin] & Hf & ->)]; eauto 8.
        inversion E; subst. left; left. congruence.
    + intros x Hx. apply Hv in Hx as [Hx|(op' & Hin & Hf)]; eauto.
      apply values_set in Hx as [->|Hx]; eauto.
  - destruct (IH paths) as (paths' & Hp & Hk & Hv);
      [intros; apply Hok; now right|].
    exists paths'. split; [exact Hp|]. split.
    + intros k. rewrite Hk. split.
      * intros [H|(op' & c' & Hin & Hf & ->)]; eauto 8.
      * intros [H|(op' & c' & [E|Hin] & Hf & ->)]; eauto 8. discriminate.
    + intros x Hx. apply Hv in Hx as [Hx|(op' & Hin & Hf)]; eauto.
Qed.

(** The outer loop. *)
Lemma index_paths_spec order items : forall paths,
  (forall v, In v order -> In v valid_paths) ->
  (forall p v op, In p items -> In v order -> getattr p v = Return (Some op) ->
     exists c, from_operation op = Return c) ->
  exists paths', index_paths order items paths = Return paths' /\
    (forall k, Dict.mem key_eqb paths' k = true <->
       Dict.mem key_eqb paths k = true \/
       exists p v op c, In p items /\ In v order /\
         getattr p v = Return (Some op) /\ from_operation op = Return c /\
         k = (CondensedOperation.path c, CondensedOperation.method c)) /\
    (forall x, In x (Dict.values paths') ->
       In x (Dict.values paths) \/
       exists p v op, In p items /\ In v order /\
         getattr p v = Return (Some op) /\ from_operation op = Return x).
Proof.
  induction items as [|p items IH]; intros paths Hord Hok; simpl.
  - exists paths. split; [reflexivity|]. split.
    + intros k. split; [tauto|]. intros [H|(p & v & op & c & [] & _)]. assumption.
    + tauto.
  - destruct (getattrs_ok p order Hord) as (os & Hos & Hin). rewrite Hos. simpl.
    destruct (index_ops_spec os paths) as (paths1 & H1 & Hk1 & Hv1).
    { intros op Hop. apply Hin in Hop as (v & Hv & Hg).
      eapply Hok; eauto. now left. }
    rewrite H1. simpl.
    destruct (IH paths1 Hord) as (paths' & Hp & Hk & Hv).
    { intros p' v op Hp' Hv' Hg. eapply Hok; eauto. now right. }
    exists paths'. split; [exact Hp|]. split.
    + intros k. rewrite Hk, Hk1. split.
      * intros [[H|(op & c & Hop & Hf & ->)]|(p' & v & op & c & Hp' & Hv' & Hg & Hf & ->)].
        -- auto.
        -- apply Hin in Hop as (v & Hv' & Hg). right. exists p, v, op, c. auto.
        -- right. exists p', v, op, c. auto.
      * intros [H|(p' & v & op & c & [<-|Hp'] & Hv' & Hg & Hf & ->)].
        -- auto.
        -- left; right. exists op, c. repeat split; auto. apply Hin. eauto.
        -- right. exists p', v, op, c. auto.
    + intros x Hx. apply Hv in Hx as [Hx|(p' & v & op & Hp' & Hv' & Hg & Hf)].
      * apply Hv1 in Hx as [Hx|(op & Hop & Hf)]; [auto|].
        apply Hin in Hop as (v & Hv' & Hg). right. exists p, v, op. auto.
      * right. exists p', v, op. auto.
Qed.

(** The keys of the operation map. *)
Lemma build_op_map_from_spec ops : forall result k,
  Dict.mem key_eqb (build_op_map_from ops result) k = true <->
  Dict.mem key_eqb result k = true \/
  exists op t s, In op ops /\ CondensedOperation.tag op = Some t /\
    CondensedOperation.summary op = Some s /\
    k = (_flatten_path_for_url t, _flatten_path_for_url s).
Proof.
  induction ops as [|op ops IH]; intros result k; simpl.
  - split; [tauto|]. intros [H|(op & t & s & [] & _)]. assumption.
  - assert (Hskip :
      Dict.mem key_eqb (build_op_map_from ops result) k = true <->
      Dict.mem key_eqb result k = true \/
      exists op' t s, In op' ops /\ CondensedOperation.tag op' = Some t /\
        CondensedOperation.summary op' = Some s /\
        k = (_flatten_path_for_url t, _flatten_path_for_url s)) by apply IH.
    destruct (CondensedOperation.tag op) as [t|] eqn:Ht.
    + destruct (CondensedOperation.summary op) as [s|] eqn:Hs.
      * rewrite IH, (@mem_set _ _ _ key_eqb_spec). split.
        -- intros [[->|H]|(op' & t' & s' & Hin & Ht' & Hs' & ->)].
           ++ right. exists op, t, s. auto.
           ++ auto.
           ++ right. exists op', t', s'. auto.
        -- intros [H|(op' & t' & s' & [<-|Hin] & Ht' & Hs' & ->)].
           ++ auto.
           ++ left; left. congruence.
           ++ right. exists op', t', s'. auto.
      * rewrite Hskip. split.
        -- intros [H|(op' & t' & s' & Hin & Ht' & Hs' & ->)]; [auto|].
           right. exists op', t', s'. auto.
        -- intros [H|(op' & t' & s' & [<-|Hin] & Ht' & Hs' & ->)];
             [auto|congruence|].
           right. exists op', t', s'. auto.
    + rewrite Hskip. split.
      * intros [H|(op' & t' & s' & Hin & Ht' & Hs' & ->)]; [auto|].
        right. exists op', t', s'. auto.
      * intros [H|(op' & t' & s' & [<-|Hin] & Ht' & Hs' & ->)];
          [auto|congruence|].
        right. exists op', t', s'. auto.
Qed.

End NormalizerFacts.

(** * Flattening *)

Section FlattenFacts.

(** Substituting the empty string for every character outside a set keeps
    exactly the characters of the set. *)
Lemma go_delete (p : ascii -> bool) s : forall i,
  Sub.go (Re.In_ (fun c => negb (p c)))
    (fun _ (st : unit) => (Return (E := unit) (Some ""), st)) i s 0 tt
  = (Return (str_filter p s), tt).
Proof.
  induction s as [|c s IH]; intros i; simpl.
  - reflexivity.
  - unfold Re.match_at; simpl. unfold Re.one; simpl.
    destruct (p c); simpl.
    + now rewrite IH.
    + replace (i + 1 - i) with 1 by lia. now rewrite IH.
Qed.

Lemma sub_const_delete (p : ascii -> bool) s :
  Sub.sub_const (Re.In_ (fun c => negb (p c))) "" s = str_filter p s.
Proof. unfold Sub.sub_const, Sub.sub. now rewrite go_delete. Qed.

(** Flattening lower-cases, drops the characters the pattern rejects and
    turns spaces into hyphens. *)
Lemma flatten_eq value :
  _flatten_path_for_url value
  = replace_space (str_filter url_path_allowed (lower value)).
Proof. unfold _flatten_path_for_url, URL_PATH_REGEX. now rewrite sub_const_delete. Qed.

Lemma script_flatten_eq value :
  Script._flatten_path_for_url value
  = replace_space (str_filter Script.url_path_allowed (lower value)).
Proof.
  unfold Script._flatten_path_for_url, Script.URL_PATH_REGEX.
  now rewrite sub_const_delete.
Qed.

End FlattenFacts.

(** C6. For a description laid out as the parser lays it out, and whatever
    the iteration order of [valid_paths], the normalizer returns an index
    whose keys are exactly the (ID-stripped path, method) pairs of the
    operations found under get, post, put and delete; every indexed
    operation is the condensed form of one of those; and the keys of the
    operation map built from the index are exactly the (flattened tag,
    flattened summary) pairs of the indexed operations that have a (first)
    tag and a summary, where flattening lower-cases, removes the characters
    outside the allowed set and replaces spaces with hyphens. *)
Theorem normalizer_indexes order spec :
  iteration_order order -> well_placed spec ->
  exists cond, from_spec order spec = Return cond /\
    (forall k, Dict.mem key_eqb (CondensedOpenAPI.paths cond) k = true <->
       exists p v op, operation_at spec p v op /\ k = (_strip_url_ids p, v)) /\
    (forall x, In x (Dict.values (CondensedOpenAPI.paths cond)) ->
       exists p v op, operation_at spec p v op /\ from_operation op = Return x) /\
    (forall k, Dict.mem key_eqb (_build_op_map cond) k = true <->
       exists op t s, In op (Dict.values (CondensedOpenAPI.paths cond)) /\
         CondensedOperation.tag op = Some t /\
         CondensedOperation.summary op = Some s /\
         k = (_flatten_path_for_url t, _flatten_path_for_url s)) /\
    (forall value, _flatten_path_for_url value
       = replace_space (str_filter url_path_allowed (lower value))).
Proof.
  intros Hperm Hwf.
  assert (Hord : forall v, In v order <-> In v valid_paths).
  { intros v. split; apply Permutation_in; [assumption | now apply Permutation_sym]. }
  assert (Hitem : forall p, In p (Dict.values (OpenAPI.paths spec)) ->
                            exists k, In (k, p) (OpenAPI.paths spec)).
  { intros p Hp. unfold Dict.values in Hp. apply in_map_iff in Hp as ([k p'] & <- & Hin).
    now exists k. }
  assert (Hplaced : forall p v op,
             In p (Dict.values (OpenAPI.paths spec)) -> In v order ->
             getattr p v = Return (Some op) ->
             exists k, In (k, p) (OpenAPI.paths spec) /\
                       Operation.path op = ["paths"; k; v]).
  { intros p v op Hp Hv Hg. destruct (Hitem p Hp) as [k Hk].
    exists k. split; [assumption|]. eapply Hwf; eauto. now apply Hord. }
  destruct (index_paths_spec order (Dict.values (OpenAPI.paths spec)) [])
    as (paths & Hpaths & Hk & Hv).
  { intros v. apply Hord. }
  { intros p v op Hp Hv Hg. destruct (Hplaced p v op Hp Hv Hg) as (k & _ & Hpath).
    destruct (from_operation_placed op Hpath) as (c & Hc & _). eauto. }
  unfold from_spec. rewrite Hpaths. simpl. eexists. split; [reflexivity|]. simpl.
  split; [|split; [|split]].
  - intros k. rewrite Hk. unfold Dict.mem at 1. simpl. split.
    + intros [H|(p & v & op & c & Hp & Hv' & Hg & Hf & ->)]; [discriminate|].
      destruct (Hplaced p v op Hp Hv' Hg) as (k0 & Hin & Hpath).
      destruct (from_operation_placed op Hpath) as (c' & Hc' & Hcp & Hcm & _).
      assert (c' = c) as -> by congruence.
      exists k0, v, op. split; [|congruence].
      exists p. repeat split; auto. now apply Hord.
    + intros (k0 & v & op & (item & Hin & Hv' & Hg) & ->). right.
      pose proof (Hwf _ _ _ _ Hin Hv' Hg) as Hpath.
      destruct (from_operation_placed op Hpath) as (c & Hc & Hcp & Hcm & _).
      exists item, v, op, c. repeat split; auto.
      * unfold Dict.values. apply in_map_iff. now exists (k0, item).
      * now apply Hord.
      * congruence.
  - intros x Hx. apply Hv in Hx as [[]|(p & v & op & Hp & Hv' & Hg & Hf)].
    destruct (Hplaced p v op Hp Hv' Hg) as (k0 & Hin & Hpath).
    exists k0, v, op. split; [|assumption].
    exists p. repeat split; auto. now apply Hord.
  - intros k. unfold _build_op_map. simpl. rewrite build_op_map_from_spec.
    unfold Dict.mem at 1. simpl. split; [intros [H|H]; [discriminate|exact H]|auto].
  - apply flatten_eq.
Qed.

Lemma normalizer_indexes_witness :
  exists cond,
    from_spec ["delete"; "get"; "put"; "post"] Example.legacy_spec = Return cond /\
    (forall k, Dict.mem key_eqb (CondensedOpenAPI.paths cond) k = true <->
       exists p v op, operation_at Example.legacy_spec p v op /\
                      k = (_strip_url_ids p, v)) /\
    (forall x, In x (Dict.values (CondensedOpenAPI.paths cond)) ->
       exists p v op, operation_at Example.legacy_spec p v op /\
                      from_operation op = Return x) /\
    (forall k, Dict.mem key_eqb (_build_op_map cond) k = true <->
       exists op t s, In op (Dict.values (CondensedOpenAPI.paths cond)) /\
         CondensedOperation.tag op = Some t /\
         CondensedOperation.summary op = Some s /\
         k = (_flatten_path_for_url t, _flatten_path_for_url s)) /\
    (forall value, _flatten_path_for_url value
       = replace_space (str_filter url_path_allowed (lower value))).
Proof.
  apply (@normalizer_indexes ["delete"; "get"; "put"; "post"] Example.legacy_spec).
  - unfold iteration_order, valid_paths.
    apply perm_trans with (l' := ["get"; "delete"; "put"; "post"]);
      [apply perm_swap|].
    apply perm_skip.
    apply perm_trans with (l' := ["put"; "delete"; "post"]); [apply perm_swap|].
    apply perm_trans with (l' := ["put"; "post"; "delete"]);
      [apply perm_skip, perm_swap|].
    apply perm_trans with (l' := ["post"; "put"; "delete"]); [apply perm_swap|].
    apply Permutation_refl.
  - intros k item v op [E|[]] Hv Hg. inversion E; subst; clear E.
    unfold valid_paths in Hv. simpl in Hv.
    destruct Hv as [<-|[<-|[<-|[<-|[]]]]]; simpl in Hg; inversion Hg; subst.
    reflexivity.
Defined.

(** * The script and the package *)

Section AgreementFacts.

Lemma lower_not_upper c : Char.upper_az (Char.lower c) = false.
Proof. destruct c as [[] [] [] [] [] [] [] []]; reflexivity. Qed.

Lemma kept_only_spec c :
  Char.upper_az c = false ->
  url_path_allowed c && negb (Script.url_path_allowed c) = kept_by_package_only c.
Proof. destruct c as [[] [] [] [] [] [] [] []]; intros H; try reflexivity; discriminate. Qed.

Lemma script_allowed_incl c :
  Script.url_path_allowed c = true -> url_path_allowed c = true.
Proof.
  unfold Script.url_path_allowed, url_path_allowed.
  intros H. apply orb_true_iff in H as [H|H]; rewrite H;
    rewrite ?orb_true_r; reflexivity.
Qed.

Lemma lower_no_upper s : str_forall (fun c => negb (Char.upper_az c)) (lower s) = true.
Proof.
  unfold lower. induction s as [|c s IH]; simpl; [reflexivity|].
  now rewrite lower_not_upper, IH.
Qed.

Lemma replace_space_length s : String.length (replace_space s) = String.length s.
Proof. unfold replace_space. induction s; simpl; congruence. Qed.

Lemma filter_length_le s :
  String.length (str_filter Script.url_path_allowed s)
  <= String.length (str_filter url_path_allowed s).
Proof.
  induction s as [|c s IH]; simpl; [lia|].
  destruct (Script.url_path_allowed c) eqn:Hs.
  - rewrite (script_allowed_incl c Hs). simpl. lia.
  - destruct (url_path_allowed c); simpl; lia.
Qed.

Lemma filters_equal s :
  str_forall (fun c => negb (Char.upper_az c)) s = true ->
  str_forall (fun c => negb (kept_by_package_only c)) s = true ->
  str_filter Script.url_path_allowed s = str_filter url_path_allowed s.
Proof.
  induction s as [|c s IH]; simpl; [reflexivity|].
  intros H Hp. apply andb_prop in H as [Hc Hs]. apply andb_prop in Hp as [Hk Hp].
  apply negb_true_iff in Hc, Hk. rewrite <- (kept_only_spec c Hc) in Hk.
  rewrite (IH Hs Hp).
  destruct (Script.url_path_allowed c) eqn:Ha.
  - now rewrite (script_allowed_incl c Ha).
  - destruct (url_path_allowed c); [discriminate | reflexivity].
Qed.

Lemma filters_length s :
  str_forall (fun c => negb (Char.upper_az c)) s = true ->
  String.length (str_filter Script.url_path_allowed s)
  = String.length (str_filter url_path_allowed s) ->
  str_forall (fun c => negb (kept_by_package_only c)) s = true.
Proof.
  induction s as [|c s IH]; simpl; [reflexivity|].
  intros H. apply andb_prop in H as [Hc Hs]. apply negb_true_iff in Hc.
  rewrite <- (kept_only_spec c Hc).
  pose proof (filter_length_le s) as Hle.
  destruct (Script.url_path_allowed c) eqn:Ha.
  - rewrite (script_allowed_incl c Ha). simpl. intros E. apply IH; [assumption|lia].
  - destruct (url_path_allowed c); simpl; intros E; [lia|]. now apply IH.
Qed.

End AgreementFacts.

(** C9 (amended). The script's and the package's [_flatten_path_for_url]
    return the same key for a tag or summary exactly when its lower-cased
    form holds no digit, no hyphen and none of the six characters between
    [Z] and [a], which the package's pattern keeps and the script's removes;
    operations whose tag and summary are such strings are filed under the
    same key by both. *)
Theorem flatten_agreement value :
  Script._flatten_path_for_url value = _flatten_path_for_url value <->
  flattens_alike value = true.
Proof.
  rewrite script_flatten_eq, flatten_eq. unfold flattens_alike.
  pose proof (lower_no_upper value) as Hup. split.
  - intros E. apply filters_length; [assumption|].
    apply (f_equal String.length) in E. now rewrite !replace_space_length in E.
  - intros Hp. now rewrite filters_equal.
Qed.

(** C9, as stated, fails: the summary below keeps its digit in the package
    and loses it in the script, and the operation maps the two build from
    one description have different keys. *)
Lemma flatten_agreement_counterexample :
  Script._flatten_path_for_url "IPv6 Range Create" = "ipv-range-create" /\
  _flatten_path_for_url "IPv6 Range Create" = "ipv6-range-create" /\
  Dict.keys (Script._build_op_map Example9.spec)
  = [("networking", "ipv-range-create")] /\
  (exists cond, from_spec valid_paths Example9.spec = Return cond /\
     Dict.keys (_build_op_map cond) = [("networking", "ipv6-range-create")]).
Proof.
  split; [vm_compute; reflexivity|].
  split; [vm_compute; reflexivity|].
  split; [vm_compute; reflexivity|].
  eexists. split; vm_compute; reflexivity.
Qed.

(** * The command line *)

Section CommandLineFacts.
Variable blob : Type.
Variable dumps : URLTranslator.t -> blob.
Variable loads : blob -> outcome exn URLTranslator.t.
Variable PICKLE_PATH : string.

(** The contract of the [pickle] library on a translator, which is built
    from strings, [None], tuples, dicts and dataclass instances only. *)
Hypothesis loads_dumps : forall t, loads (dumps t) = Return t.

Lemma load_pickled_fs path (w : world blob) :
  fs (snd (load_pickled loads path w)) = fs w /\
  stdout (snd (load_pickled loads path w)) = stdout w /\
  (io_log (snd (load_pickled loads path w)) = io_log w \/
   io_log (snd (load_pickled loads path w)) = (io_log w ++ [FileRead path])%list).
Proof.
  unfold load_pickled. destruct (fs w path) as [[c|b]|]; simpl; auto.
Qed.

(** C7. Writing a translator with [pickle(path)] and reading it back with
    [load_pickled(path)] yields the translator itself: the same condensed
    legacy spec, condensed new spec and legacy operation map, hence the same
    result of [replace_urls] on every input. *)
Theorem pickle_round_trip self path (w : world blob) :
  exists loaded,
    fst (load_pickled loads path (pickle dumps self path w)) = Return loaded /\
    _legacy_spec loaded = _legacy_spec self /\
    _new_spec loaded = _new_spec self /\
    _legacy_op_map loaded = _legacy_op_map self /\
    forall target force p,
      replace_urls loaded target force p = replace_urls self target force p.
Proof.
  exists self. unfold load_pickled, pickle, write_file; simpl.
  rewrite String.eqb_refl. simpl. rewrite loads_dumps. auto.
Qed.

(** C10 (amended). When [write_changes] is false and more than one path is
    given, [execute] first loads the pickled translator, which reads the
    pickle file and nothing else; if that fails its exception is the
    outcome, otherwise [ValueError] is raised. Either way no target file is
    read or written, nothing goes to stdout and every file is unchanged. *)
Theorem execute_guard args (w : world blob) :
  Namespace.write_changes args = false ->
  1 < length (Namespace.path args) ->
  let res := execute loads PICKLE_PATH args w in
  fs (snd res) = fs w /\
  stdout (snd res) = stdout w /\
  (io_log (snd res) = io_log w \/
   io_log (snd res) = (io_log w ++ [FileRead PICKLE_PATH])%list) /\
  (forall translator,
     fst (load_pickled loads PICKLE_PATH w) = Return translator ->
     fst res = Raise (ValueError
       "--write_changes must be specified when more than one path is given")) /\
  (forall e,
     fst (load_pickled loads PICKLE_PATH w) = Raise e -> fst res = Raise e).
Proof.
  intros Hw Hn. unfold execute.
  pose proof (load_pickled_fs PICKLE_PATH w) as (Hfs & Hout & Hlog).
  destruct (load_pickled loads PICKLE_PATH w) as [[t|e] w1]; simpl in *.
  - rewrite Hw. apply Nat.ltb_lt in Hn. rewrite Hn. simpl.
    repeat split; auto; intros; congruence.
  - repeat split; auto; intros; congruence.
Qed.

End CommandLineFacts.

Lemma pickle_round_trip_witness :
  exists loaded,
    fst (load_pickled ExampleCli.loads "specdata.bin"
           (pickle ExampleCli.dumps Example.translator "specdata.bin"
              ExampleCli.unbaked)) = Return loaded /\
    _legacy_spec loaded = _legacy_spec Example.translator /\
    _new_spec loaded = _new_spec Example.translator /\
    _legacy_op_map loaded = _legacy_op_map Example.translator /\
    forall target force p,
      replace_urls loaded target force p
      = replace_urls Example.translator target force p.
Proof.
  apply (@pickle_round_trip URLTranslator.t ExampleCli.dumps ExampleCli.loads).
  intros t. reflexivity.
Defined.

Lemma execute_guard_witness :
  let res := execute ExampleCli.loads ExampleCli.PICKLE_PATH ExampleCli.args
               ExampleCli.baked in
  fs (snd res) = fs ExampleCli.baked /\
  stdout (snd res) = stdout ExampleCli.baked /\
  (io_log (snd res) = io_log ExampleCli.baked \/
   io_log (snd res) = (io_log ExampleCli.baked ++ [FileRead ExampleCli.PICKLE_PATH])%list) /\
  (forall translator,
     fst (load_pickled ExampleCli.loads ExampleCli.PICKLE_PATH ExampleCli.baked)
     = Return translator ->
     fst res = Raise (ValueError
       "--write_changes must be specified when more than one path is given")) /\
  (forall e,
     fst (load_pickled ExampleCli.loads ExampleCli.PICKLE_PATH ExampleCli.baked)
     = Raise e -> fst res = Raise e).
Proof.
  apply (@execute_guard URLTranslator.t ExampleCli.loads ExampleCli.PICKLE_PATH
           ExampleCli.args ExampleCli.baked).
  - reflexivity.
  - simpl. lia.
Defined.

(** C10, as stated, fails: before the check [execute] opens the pickle
    file. Where no translator has been baked, what is raised is
    [FileNotFoundError], not [ValueError]; where one has, the pickle file
    has been read by the time [ValueError] is raised. *)
Lemma execute_guard_counterexample :
  Namespace.write_changes ExampleCli.args = false /\
  length (Namespace.path ExampleCli.args) = 2 /\
  fst (execute ExampleCli.loads ExampleCli.PICKLE_PATH ExampleCli.args
         ExampleCli.unbaked)
  = Raise (FileNotFoundError "specdata.bin") /\
  (let res := execute ExampleCli.loads ExampleCli.PICKLE_PATH ExampleCli.args
                ExampleCli.baked in
   fst res = Raise (ValueError
     "--write_changes must be specified when more than one path is given") /\
   io_log (snd res) = [FileRead "specdata.bin"]).
Proof. vm_compute. repeat split. Qed.

(** * The link matcher *)

Section LinkFacts.

Lemma sem_cat_inv r1 r2 w s' g :
  sem (Re.Cat r1 r2) w s' g ->
  exists w1 w2 g1 g2, w = w1 ++ w2 /\ g = (g2 ++ g1)%list /\
    sem r1 w1 (w2 ++ s') g1 /\ sem r2 w2 s' g2.
Proof. exact (fun H => H). Qed.

Lemma sem_cat_intro r1 r2 w1 w2 s' g1 g2 :
  sem r1 w1 (w2 ++ s') g1 -> sem r2 w2 s' g2 ->
  sem (Re.Cat r1 r2) (w1 ++ w2) s' (g2 ++ g1)%list.
Proof. intros H1 H2. simpl. exists w1, w2, g1, g2. auto. Qed.

Lemma sem_cat_plain r1 r2 w1 w2 s' g :
  sem r1 w1 (w2 ++ s') [] -> sem r2 w2 s' g ->
  sem (Re.Cat r1 r2) (w1 ++ w2) s' g.
Proof.
  intros H1 H2. simpl. exists w1, w2, [], g. rewrite app_nil_r. auto.
Qed.

Lemma sem_cat_last r1 w s' g :
  sem r1 w s' g -> sem (Re.Cat r1 Re.Eps) w s' g.
Proof.
  intros H. simpl. exists w, "", g, []. rewrite append_nil_r. simpl. auto.
Qed.

Lemma sem_lit t : forall w s' g, sem (Re.Lit t) w s' g <-> w = t /\ g = [].
Proof.
  induction t as [|c t IH]; intros w s' g; simpl; [tauto|]. split.
  - intros (w1 & w2 & g1 & g2 & -> & -> & [-> ->] & H).
    apply IH in H as [-> ->]. auto.
  - intros [-> ->]. exists (String c ""), t, [], []. repeat split.
    now apply IH.
Qed.

Lemma sem_opt_chr c w s' g :
  sem (Re.Opt (Re.Chr c)) w s' g <-> exists b, w = flag b (String c "") /\ g = [].
Proof.
  simpl. split.
  - intros [[-> ->]|[-> ->]]; [now exists true | now exists false].
  - intros ([|] & -> & ->); simpl; auto.
Qed.

Lemma sem_opt_group name p w s' g :
  sem (Re.Opt (Re.Group name (Re.Plus1 p))) w s' g <->
  exists o, component_ok p o /\ w = text_of o /\ g = captured_as name o.
Proof.
  simpl. split.
  - intros [(g1 & [[Hne Hall] ->] & ->)|[-> ->]].
    + exists (Some w). simpl. auto.
    + now exists None.
  - intros ([t|] & Hok & -> & ->); simpl in *; [left|right; auto].
    exists []. destruct Hok. auto.
Qed.

Lemma sem_opt_anchor p w s' g :
  sem (Re.Opt (Re.Seq [Re.Lit "__"; Re.Group "anchor" (Re.Plus1 p)])) w s' g <->
  exists o, component_ok p o /\ w = anchor_text o /\ g = captured_as "anchor" o.
Proof.
  split.
  - intros [H|[-> ->]]; [|now exists None].
    apply sem_cat_inv in H as (w1 & w2 & g1 & g2 & -> & -> & H1 & H).
    apply sem_lit in H1 as [-> ->].
    apply sem_cat_inv in H as (w3 & w4 & g3 & g4 & -> & -> & H3 & [-> ->]).
    destruct H3 as (g5 & [[Hne Hall] ->] & ->).
    exists (Some w3). simpl. rewrite append_nil_r. auto.
  - intros ([a|] & Hok & -> & ->); [left|right; auto].
    destruct Hok as [Hne Hall]. unfold anchor_text, captured_as.
    change [("anchor", a)] with ([("anchor", a)] ++ [])%list.
    apply sem_cat_intro; [now apply sem_lit|].
    apply sem_cat_last. simpl. exists []. auto.
Qed.

Lemma sem_scheme w s' g :
  sem (Re.Opt (Re.Seq [Re.Lit "https://www"; Re.Dot])) w s' g <->
  exists o, dot_ok o /\ w = scheme_text o /\ g = [].
Proof.
  split.
  - intros [H|[-> ->]]; [|now exists None].
    apply sem_cat_inv in H as (w1 & w2 & g1 & g2 & -> & -> & H1 & H).
    apply sem_lit in H1 as [-> ->].
    apply sem_cat_inv in H as (w3 & w4 & g3 & g4 & -> & -> & H3 & [-> ->]).
    destruct H3 as [(d & -> & Hd) ->].
    exists (Some d). simpl. auto.
  - intros ([d|] & Hok & -> & ->); [left|right; auto].
    simpl in Hok. unfold scheme_text.
    change (@nil (string * string)) with ([] ++ @nil (string * string))%list.
    apply sem_cat_intro; [now apply sem_lit|].
    apply sem_cat_last. simpl. split; [|reflexivity]. now exists d.
Qed.

Lemma newline_delimiter : delimiter Char.newline = true.
Proof. reflexivity. Qed.

Lemma sem_ahead w s' g :
  sem (Re.Ahead (Re.Alt (Re.In_ delimiter) Re.Eol)) w s' g <->
  w = "" /\ g = [] /\ at_boundary s' = true.
Proof.
  simpl. split.
  - intros [[-> ->] (w1 & s1 & g1 & -> & [[(c & -> & Hc) _]|[[-> _] [->|[t ->]]]])];
      simpl; auto.
  - intros (-> & -> & Hb). split; [auto|].
    destruct s' as [|c t]; simpl in Hb.
    + exists "", "", []. simpl. auto.
    + exists (String c ""), t, []. split; [reflexivity|]. left.
      split; [|reflexivity]. now exists c.
Qed.

End LinkFacts.

Section LegacyPattern.

(** What [LEGACY_URL_REGEX] denotes, the unescaped dots included. *)
Lemma legacy_sem w s' g :
  sem LEGACY_URL_REGEX w s' g <->
  exists sch d sl1 tg sl2 h su an,
    w = scheme_text sch ++ "linode" ++ String d "" ++ "com/docs/api"
        ++ link_tail sl1 tg sl2 h su an /\
    g = captured tg su an /\
    dot_ok sch /\ d <> Char.newline /\ link_tail_ok tg su an /\
    at_boundary s' = true.
Proof.
  unfold LEGACY_URL_REGEX. split.
  - intros H.
    apply sem_cat_inv in H as (w1 & x1 & g1 & y1 & -> & -> & H1 & H).
    apply sem_scheme in H1 as (sch & Hsch & -> & ->).
    apply sem_cat_inv in H as (w2 & x2 & g2 & y2 & -> & -> & H2 & H).
    apply sem_lit in H2 as [-> ->].
    apply sem_cat_inv in H as (w3 & x3 & g3 & y3 & -> & -> & H3 & H).
    destruct H3 as [(d & -> & Hd) ->].
    apply sem_cat_inv in H as (w4 & x4 & g4 & y4 & -> & -> & H4 & H).
    apply sem_lit in H4 as [-> ->].
    apply sem_cat_inv in H as (w5 & x5 & g5 & y5 & -> & -> & H5 & H).
    apply sem_opt_chr in H5 as (sl1 & -> & ->).
    apply sem_cat_inv in H as (w6 & x6 & g6 & y6 & -> & -> & H6 & H).
    apply sem_opt_group in H6 as (tg & Htg & -> & ->).
    apply sem_cat_inv in H as (w7 & x7 & g7 & y7 & -> & -> & H7 & H).
    apply sem_opt_chr in H7 as (sl2 & -> & ->).
    apply sem_cat_inv in H as (w8 & x8 & g8 & y8 & -> & -> & H8 & H).
    apply sem_opt_chr in H8 as (h & -> & ->).
    apply sem_cat_inv in H as (w9 & x9 & g9 & y9 & -> & -> & H9 & H).
    apply sem_opt_group in H9 as (su & Hsu & -> & ->).
    apply sem_cat_inv in H as (w10 & x10 & g10 & y10 & -> & -> & H10 & H).
    apply sem_opt_anchor in H10 as (an & Han & -> & ->).
    apply sem_cat_inv in H as (w11 & x11 & g11 & y11 & -> & -> & H11 & [-> ->]).
    apply sem_ahead in H11 as (-> & -> & Hb).
    exists sch, d, sl1, tg, sl2, h, su, an.
    unfold link_tail, captured, link_tail_ok. simpl.
    rewrite !app_nil_r, !append_nil_r, <- !app_assoc.
    repeat split; auto.
  - intros (sch & d & sl1 & tg & sl2 & h & su & an & -> & -> & Hsch & Hd
            & (Htg & Hsu & Han) & Hb).
    unfold link_tail, captured. rewrite app_assoc.
    apply sem_cat_plain; [apply sem_scheme; now exists sch|].
    apply sem_cat_plain; [now apply sem_lit|].
    apply sem_cat_plain; [split; [now exists d | reflexivity]|].
    apply sem_cat_plain; [now apply sem_lit|].
    apply sem_cat_plain; [apply sem_opt_chr; now exists sl1|].
    apply sem_cat_intro; [apply sem_opt_group; now exists tg|].
    apply sem_cat_plain; [apply sem_opt_chr; now exists sl2|].
    apply sem_cat_plain; [apply sem_opt_chr; now exists h|].
    apply sem_cat_intro; [apply sem_opt_group; now exists su|].
    rewrite <- (append_nil_r (anchor_text an)).
    rewrite <- (app_nil_l (captured_as "anchor" an)).
    apply sem_cat_intro; [apply sem_opt_anchor; now exists an|].
    apply sem_cat_last. apply sem_ahead. auto.
Qed.

End LegacyPattern.

Section BoundaryFacts.

Lemma group_captured tg su an g :
  g = captured tg su an ->
  Re.assoc "tag" g = tg /\ Re.assoc "summary" g = su /\ Re.assoc "anchor" g = an.
Proof. intros ->. destruct tg, su, an; repeat split. Qed.

Lemma word_not_delimiter c : word_or_hyphen c = true -> delimiter c = false.
Proof.
  destruct c as [[] [] [] [] [] [] [] []]; intros H; try reflexivity; discriminate.
Qed.

Lemma alnum_is_word c : alnum_or_hyphen c = true -> word_or_hyphen c = true.
Proof.
  destruct c as [[] [] [] [] [] [] [] []]; intros H; try reflexivity; discriminate.
Qed.

Lemma str_forall_impl (p q : ascii -> bool) s :
  (forall c, p c = true -> q c = true) ->
  str_forall p s = true -> str_forall q s = true.
Proof.
  intros Hpq. induction s as [|c s IH]; simpl; [auto|].
  intros H. apply andb_prop in H as [Hc Hs]. now rewrite (Hpq c Hc), IH.
Qed.

Lemma component_inside p o :
  (forall c, p c = true -> inside c = true) ->
  component_ok p o -> str_forall inside (text_of o) = true.
Proof.
  intros Hp. destruct o as [t|]; simpl; [|reflexivity].
  intros [_ H]. now apply str_forall_impl with (p := p).
Qed.

Lemma word_inside c : word_or_hyphen c = true -> inside c = true.
Proof. intros H. unfold inside. now rewrite word_not_delimiter. Qed.

Lemma link_tail_inside sl1 tg sl2 h su an :
  link_tail_ok tg su an ->
  str_forall inside (link_tail sl1 tg sl2 h su an) = true.
Proof.
  intros (Htg & Hsu & Han). unfold link_tail.
  rewrite !str_forall_append.
  rewrite (@component_inside word_or_hyphen tg word_inside Htg).
  rewrite (@component_inside alnum_or_hyphen su
             (fun c H => @word_inside c (@alnum_is_word c H)) Hsu).
  assert (Ha : str_forall inside (anchor_text an) = true).
  { destruct an as [a|]; simpl; [|reflexivity].
    destruct Han as [_ Ha]. now apply str_forall_impl with (p := word_or_hyphen);
      [apply word_inside|]. }
  rewrite Ha. now destruct sl1, sl2, h.
Qed.

(** A run free of delimiters that ends at a boundary ends at the first
    boundary: two such runs from the same place are the same. *)
Lemma boundary_unique a : forall a' b b',
  a ++ b = a' ++ b' ->
  str_forall inside a = true -> str_forall inside a' = true ->
  at_boundary b = true -> at_boundary b' = true ->
  a = a' /\ b = b'.
Proof.
  induction a as [|x a IH]; intros [|y a'] b b' E Ha Ha' Hb Hb'; simpl in *.
  - auto.
  - subst b. simpl in Hb. apply andb_prop in Ha' as [Hy _].
    unfold inside in Hy. rewrite Hb in Hy. discriminate.
  - subst b'. simpl in Hb'. apply andb_prop in Ha as [Hx _].
    unfold inside in Hx. rewrite Hb' in Hx. discriminate.
  - injection E as -> E. apply andb_prop in Ha as [_ Ha].
    apply andb_prop in Ha' as [_ Ha'].
    destruct (IH a' b b' E Ha Ha' Hb Hb') as [-> ->]. auto.
Qed.

(** A match that begins where a literally written base begins goes
    through that base. *)
Lemma matched_base_app sch d x :
  scheme_text sch ++ "linode" ++ String d "" ++ "com/docs/api" ++ x
  = matched_base sch d ++ x.
Proof. unfold matched_base. destruct sch; reflexivity. Qed.

Lemma base_align www sch d x y :
  matched_base sch d ++ x = base www ++ y ->
  matched_base sch d = base www /\ x = y.
Proof.
  destruct www, sch as [d0|]; unfold base, matched_base, scheme_text, flag; simpl;
    intros E; try discriminate; injection E; intros; subst; auto.
Qed.

Lemma base_sem www sl1 tg sl2 h su an following :
  link_tail_ok tg su an -> at_boundary following = true ->
  sem LEGACY_URL_REGEX (base www ++ link_tail sl1 tg sl2 h su an) following
    (captured tg su an).
Proof.
  intros Hok Hb. apply legacy_sem.
  exists (if www then Some "."%char else None), "."%char, sl1, tg, sl2, h, su, an.
  repeat split; try assumption; try apply Hok.
  - now destruct www.
  - destruct www; simpl; [discriminate | exact I].
  - discriminate.
Qed.

End BoundaryFacts.

(** C5 (amended). One pattern recognizes the links and extracts their
    components. Of a substring that starts with the base [linode.com/docs/api],
    with or without [https://www.] before it: it is the match at its place
    exactly when the rest of it is an optional slash, an optional tag of
    word characters and hyphens, an optional slash, an optional [#], an
    optional summary of ASCII letters, digits and hyphens and an optional
    anchor of word characters and hyphens after [__], and it ends right
    before a double quote, whitespace, a closing parenthesis or the end of
    the input; the groups [tag], [summary] and [anchor] of the match are
    components of such a reading of it, [None] for the absent ones. *)
Theorem legacy_url_regex_matches (www : bool) (tail following : string) (i : nat) :
  let s := (base www ++ tail) ++ following in
  ((exists m, Re.match_at LEGACY_URL_REGEX i s = Some m /\
              Re.m_text m = base www ++ tail)
   <->
   ((exists sl1 tg sl2 h su an,
       tail = link_tail sl1 tg sl2 h su an /\ link_tail_ok tg su an) /\
    at_boundary following = true))
  /\
  (forall m, Re.match_at LEGACY_URL_REGEX i s = Some m ->
     Re.m_text m = base www ++ tail ->
     Re.m_start m = i /\
     Re.m_end m = i + String.length (base www ++ tail) /\
     exists sl1 sl2 h,
       tail = link_tail sl1 (Re.group m "tag") sl2 h (Re.group m "summary")
                (Re.group m "anchor") /\
       link_tail_ok (Re.group m "tag") (Re.group m "summary") (Re.group m "anchor")).
Proof.
  intros s.
  assert (Hinv : forall m, Re.match_at LEGACY_URL_REGEX i s = Some m ->
            Re.m_text m = base www ++ tail ->
            Re.m_start m = i /\
            Re.m_end m = i + String.length (base www ++ tail) /\
            at_boundary following = true /\
            exists sl1 sl2 h,
              tail = link_tail sl1 (Re.group m "tag") sl2 h (Re.group m "summary")
                       (Re.group m "anchor") /\
              link_tail_ok (Re.group m "tag") (Re.group m "summary")
                (Re.group m "anchor")).
  { intros m Hm Htext.
    apply match_at_inv in Hm as (w & s' & Hs & Hsem & Hst & Hen & Hw).
    rewrite Htext in Hw. subst w. unfold s in Hs.
    apply append_inv_head in Hs. subst s'.
    apply legacy_sem in Hsem
      as (sch & d & sl1 & tg & sl2 & h & su & an & Hw & Hg & _ & _ & Hok & Hb).
    rewrite matched_base_app in Hw. symmetry in Hw.
    apply base_align in Hw as [_ Hw].
    destruct (@group_captured tg su an _ Hg) as (Ht & Hsu & Han).
    unfold Re.group. rewrite Ht, Hsu, Han.
    repeat split; try assumption. exists sl1, sl2, h. auto. }
  split; [split|].
  - intros (m & Hm & Htext).
    destruct (Hinv m Hm Htext) as (_ & _ & Hb & sl1 & sl2 & h & Ht & Hok).
    split; [|assumption]. eauto 10.
  - intros [(sl1 & tg & sl2 & h & su & an & Htail & Hok) Hb].
    destruct (@match_at_complete LEGACY_URL_REGEX i _ _ _
                (@base_sem www sl1 tg sl2 h su an following Hok Hb)) as [m Hm].
    rewrite <- Htail in Hm. fold s in Hm.
    exists m. split; [exact Hm|].
    apply match_at_inv in Hm as (w & s' & Hs & Hsem & _ & _ & ->).
    apply legacy_sem in Hsem
      as (sch & d & sl1' & tg' & sl2' & h' & su' & an' & -> & _ & _ & _ & Hok' & Hb').
    rewrite matched_base_app in Hs |- *.
    unfold s in Hs. rewrite !append_assoc in Hs. symmetry in Hs.
    apply base_align in Hs as [-> Hs]. rewrite Htail in Hs.
    destruct (@boundary_unique _ _ _ _ Hs
                (@link_tail_inside sl1' tg' sl2' h' su' an' Hok')
                (@link_tail_inside sl1 tg sl2 h su an Hok) Hb' Hb) as [-> _].
    now rewrite Htail.
  - intros m Hm Htext.
    destruct (Hinv m Hm Htext) as (H1 & H2 & _ & H3). auto.
Qed.

(** C5, as stated, fails: the separators of the pattern are optional one by
    one. The first text is matched whole with tag [foo] although no slash
    sets the tag off, and so is no link as the claim words them; the second
    is matched whole with summary [bar] although no [#] comes before it. *)
Lemma legacy_url_regex_counterexample :
  Re.match_at LEGACY_URL_REGEX 0 "linode.com/docs/apifoo"
  = Some {| Re.m_start := 0; Re.m_end := 22;
            Re.m_text := "linode.com/docs/apifoo";
            Re.m_groups := [("tag", "foo")] |} /\
  ~ claimed_link "linode.com/docs/apifoo" /\
  Re.match_at LEGACY_URL_REGEX 0 "linode.com/docs/api/foo/bar"
  = Some {| Re.m_start := 0; Re.m_end := 27;
            Re.m_text := "linode.com/docs/api/foo/bar";
            Re.m_groups := [("summary", "bar"); ("tag", "foo")] |} /\
  ~ claimed_link "linode.com/docs/api/foo/bar".
Proof.
  split; [reflexivity|]. split; [|split; [reflexivity|]].
  - intros (www & sl1 & tg & sl2 & su & an & _ & E).
    destruct www; [discriminate|].
    unfold base, flag in E. simpl in E.
    destruct tg as [t|], sl1, su as [u|], an as [a|]; simpl in E; discriminate.
  - intros (www & sl1 & tg & sl2 & su & an & (Htg & _ & _) & E).
    destruct www; [discriminate|].
    unfold base, flag in E. simpl in E.
    destruct tg as [t|];
      [|destruct sl1, su as [u|], an as [a|]; simpl in E; discriminate].
    destruct Htg as [Hne Ht]. simpl in E. injection E as E.
    destruct t as [|c1 t]; [congruence|]. simpl in E. injection E as <- E.
    destruct t as [|c2 t];
      [destruct sl2, su as [u|], an as [a|]; simpl in E; discriminate|].
    simpl in E. injection E as <- E.
    destruct t as [|c3 t];
      [destruct sl2, su as [u|], an as [a|]; simpl in E; discriminate|].
    simpl in E. injection E as <- E.
    destruct t as [|c4 t];
      [destruct sl2, su as [u|], an as [a|]; simpl in E; discriminate|].
    simpl in E. injection E as <- E. cbn in Ht. discriminate.
Qed.

(** * Matching does not depend on where the subject starts *)

Section ShiftFacts.
Variable d : nat.

Lemma shift_step st s' : shift d (Re.step st s') = Re.step (shift d st) s'.
Proof. unfold shift, Re.step; simpl. f_equal. lia. Qed.

Lemma one_shift p (R R' : Type) (f : R -> R') st
    (k : Re.mstate -> option R) (k' : Re.mstate -> option R') :
  (forall st', k' (shift d st') = option_map f (k st')) ->
  Re.one p (shift d st) k' = option_map f (Re.one p st k).
Proof.
  intros Hk. unfold Re.one; simpl.
  destruct (Re.rest st) as [|c s']; [reflexivity|].
  destruct (p c); [|reflexivity].
  now rewrite <- shift_step, Hk.
Qed.

Lemma plus1_shift p (R R' : Type) (f : R -> R') s : forall st
    (k : Re.mstate -> option R) (k' : Re.mstate -> option R'),
  (forall st', k' (shift d st') = option_map f (k st')) ->
  Re.plus1 p s (shift d st) k' = option_map f (Re.plus1 p s st k).
Proof.
  induction s as [|c s IH]; intros st k k' Hk; simpl; [reflexivity|].
  destruct (p c); [|reflexivity].
  rewrite <- shift_step, (IH _ k k' Hk).
  destruct (Re.plus1 p s (Re.step st s) k); simpl; [reflexivity|].
  apply Hk.
Qed.

Lemma run_shift r : forall (R R' : Type) (f : R -> R') st
    (k : Re.mstate -> option R) (k' : Re.mstate -> option R'),
  (forall st', k' (shift d st') = option_map f (k st')) ->
  Re.run r (shift d st) k' = option_map f (Re.run r st k).
Proof.
  induction r as [|c| |p|r1 IH1 r2 IH2|r1 IH1 r2 IH2|r1 IH1|p|name r1 IH1|r1 IH1|];
    intros R R' f st k k' Hk; simpl.
  - apply Hk.
  - now apply one_shift.
  - now apply one_shift.
  - now apply one_shift.
  - apply IH1. intros st1. now apply IH2.
  - rewrite (IH1 _ _ f st k k' Hk).
    destruct (Re.run r1 st k); simpl; [reflexivity|]. now apply IH2.
  - rewrite (IH1 _ _ f st k k' Hk).
    destruct (Re.run r1 st k); simpl; [reflexivity|]. apply Hk.
  - now apply plus1_shift.
  - apply IH1. intros st1. simpl.
    replace (Re.pos st1 + d - (Re.pos st + d)) with (Re.pos st1 - Re.pos st) by lia.
    apply (Hk (Re.set_group name (take (Re.pos st1 - Re.pos st) (Re.rest st)) st1)).
  - rewrite (IH1 unit unit (fun x => x) st (fun _ => Some tt) (fun _ => Some tt))
      by reflexivity.
    destruct (Re.run r1 st (fun _ => Some tt)); simpl; [apply Hk | reflexivity].
  - destruct (Re.rest st) as [|c s']; [apply Hk|].
    destruct (Char.only Char.newline c); [apply Hk | reflexivity].
Qed.

(** A match found [d] characters further on is the same match, moved. *)
Lemma match_at_shift r i s :
  Re.match_at r (i + d) s = option_map (shift_match d) (Re.match_at r i s).
Proof.
  unfold Re.match_at.
  apply (run_shift r (shift_match d) {| Re.pos := i; Re.rest := s; Re.groups := [] |}).
  intros st'. unfold shift_match; simpl.
  replace (Re.pos st' + d - (i + d)) with (Re.pos st' - i) by lia. reflexivity.
Qed.

End ShiftFacts.

(** * [re.sub] with a constant replacement *)

Section SubConstFacts.
Variable r : Re.regex.
Variable repl : string.

Let h : Re.Match -> unit -> outcome unit (option string) * unit :=
  fun _ st => (Return (Some repl), st).

Lemma match_at_length i j s :
  match Re.match_at r i s, Re.match_at r j s with
  | Some m, Some m' => Re.m_end m - Re.m_start m = Re.m_end m' - Re.m_start m'
  | None, None => True
  | _, _ => False
  end.
Proof.
  pose proof (match_at_shift i r 0 s) as Hi.
  pose proof (match_at_shift j r 0 s) as Hj. simpl in Hi, Hj.
  rewrite Hi, Hj. destruct (Re.match_at r 0 s); simpl; [lia | exact I].
Qed.

Lemma go_const_index s : forall i j skip,
  Sub.go r h i s skip tt = Sub.go r h j s skip tt.
Proof.
  induction s as [|c s IH]; intros i j skip; simpl.
  - destruct skip; [|reflexivity].
    pose proof (match_at_length i j "") as Hl.
    destruct (Re.match_at r i ""), (Re.match_at r j ""); try contradiction;
      reflexivity.
  - destruct skip as [|n]; [|apply IH].
    pose proof (match_at_length i j (String c s)) as Hl.
    destruct (Re.match_at r i (String c s)), (Re.match_at r j (String c s));
      try contradiction.
    + unfold h at 1 3. rewrite Hl.
      destruct (Re.m_end m0 - Re.m_start m0); now rewrite (IH (S i) (S j)).
    + now rewrite (IH (S i) (S j)).
Qed.

Lemma go_const_return s : forall i skip,
  exists t, Sub.go r h i s skip tt = (Return t, tt).
Proof.
  induction s as [|c s IH]; intros i skip; simpl.
  - destruct skip; [|eauto]. destruct (Re.match_at r i ""); simpl; eauto.
  - destruct skip as [|n]; [|apply IH].
    destruct (Re.match_at r i (String c s)) as [m|]; simpl.
    + destruct (Re.m_end m - Re.m_start m) as [|n];
        [destruct (IH (S i) 0) as [t ->] | destruct (IH (S i) n) as [t ->]];
        simpl; eauto.
    + destruct (IH (S i) 0) as [t ->]. simpl. eauto.
Qed.

(** Passing over the rest of a match. *)
Lemma go_skip x : forall s i,
  Sub.go r h i (x ++ s) (String.length x) tt
  = Sub.go r h (i + String.length x) s 0 tt.
Proof.
  induction x as [|c x IH]; intros s i; simpl.
  - now rewrite Nat.add_0_r.
  - rewrite IH. f_equal. lia.
Qed.

Lemma sub_const_go s i :
  Sub.go r h i s 0 tt = (Return (Sub.sub_const r repl s), tt).
Proof.
  unfold Sub.sub_const, Sub.sub. fold h.
  rewrite (go_const_index s i 0 0).
  destruct (go_const_return s 0 0) as [t ->]. reflexivity.
Qed.

(** A character at which nothing matches is copied. *)
Lemma sub_const_keep c s :
  Re.match_at r 0 (String c s) = None ->
  Sub.sub_const r repl (String c s) = String c (Sub.sub_const r repl s).
Proof.
  intros Hm. unfold Sub.sub_const at 1, Sub.sub. fold h. simpl.
  rewrite Hm, sub_const_go. reflexivity.
Qed.

(** A match is replaced, and the search goes on right after it. *)
Lemma sub_const_match m c x s :
  Re.match_at r 0 (String c x ++ s) = Some m ->
  Re.m_end m - Re.m_start m = String.length (String c x) ->
  Sub.sub_const r repl (String c x ++ s) = repl ++ Sub.sub_const r repl s.
Proof.
  intros Hm Hlen. unfold Sub.sub_const at 1, Sub.sub. fold h.
  simpl in *. rewrite Hm. unfold h at 1. rewrite Hlen.
  rewrite go_skip, sub_const_go. reflexivity.
Qed.

End SubConstFacts.

(** * [_strip_url_ids] *)

Section StripFacts.

Lemma ids_sem w s' g :
  sem URL_PATH_IDS_REGEX w s' g <->
  exists x, w = "{" ++ x ++ "}" /\ x <> "" /\
            str_forall (fun c => negb (is_close c)) x = true /\ g = [].
Proof.
  unfold URL_PATH_IDS_REGEX. simpl. split.
  - intros (w1 & w2 & g1 & g2 & -> & -> & [-> ->] &
            w3 & w4 & g3 & g4 & -> & -> & [[Hne Hall] ->] &
            w5 & w6 & g5 & g6 & -> & -> & [-> ->] & [-> ->]).
    exists w3. simpl. auto.
  - intros (x & -> & Hne & Hall & ->).
    exists "{", (x ++ "}"), [], []. repeat split.
    exists x, "}", [], []. repeat split; auto.
    exists "}", "", [], []. repeat split.
Qed.

(** The first closing brace after a run without one is where the run ends. *)
Lemma close_unique x : forall x' s s',
  x ++ String "}" s = x' ++ String "}" s' ->
  str_forall (fun c => negb (is_close c)) x = true ->
  str_forall (fun c => negb (is_close c)) x' = true ->
  x = x' /\ s = s'.
Proof.
  induction x as [|c x IH]; intros [|c' x'] s s' E Hx Hx'; simpl in *.
  - injection E as ->. auto.
  - injection E as <- _. discriminate.
  - injection E as -> _. discriminate.
  - injection E as -> E. apply andb_prop in Hx as [_ Hx].
    apply andb_prop in Hx' as [_ Hx'].
    destruct (IH _ _ _ E Hx Hx') as [-> ->]. auto.
Qed.

Lemma ids_match_group i x s :
  x <> "" -> str_forall (fun c => negb (is_close c)) x = true ->
  exists m, Re.match_at URL_PATH_IDS_REGEX i (String "{" (x ++ "}") ++ s) = Some m /\
            Re.m_end m - Re.m_start m = String.length (String "{" (x ++ "}")).
Proof.
  intros Hne Hx.
  assert (Hs : sem URL_PATH_IDS_REGEX ("{" ++ x ++ "}") s [])
    by (apply ids_sem; exists x; auto).
  destruct (@match_at_complete URL_PATH_IDS_REGEX i _ _ _ Hs) as [m Hm].
  exists m. split; [exact Hm|].
  apply match_at_inv in Hm as (w & s' & E & Hw & Hst & Hen & _).
  apply ids_sem in Hw as (x' & -> & _ & Hx' & _).
  simpl in E. injection E as E. rewrite !append_assoc in E. simpl in E.
  destruct (close_unique _ _ _ _ E Hx Hx') as [<- _].
  rewrite Hst, Hen. simpl. lia.
Qed.

Lemma ids_match_open i s m :
  Re.match_at URL_PATH_IDS_REGEX i s = Some m ->
  exists x s', s = String "{" (x ++ String "}" s') /\ x <> "" /\
               str_forall (fun c => negb (is_close c)) x = true.
Proof.
  intros Hm. apply match_at_inv in Hm as (w & s' & -> & Hw & _).
  apply ids_sem in Hw as (x & -> & Hne & Hx & _).
  exists x, s'. simpl. rewrite append_assoc. auto.
Qed.

Lemma option_none_or_some (A : Type) (o : option A) : o = None \/ exists a, o = Some a.
Proof. destruct o; eauto. Qed.

(** Any character but an opening brace is copied. *)
Lemma strip_keep c s :
  is_open c = false ->
  _strip_url_ids (String c s) = String c (_strip_url_ids s).
Proof.
  intros Hc. apply sub_const_keep.
  destruct (option_none_or_some (Re.match_at URL_PATH_IDS_REGEX 0 (String c s)))
    as [H|[m H]]; [exact H|].
  apply ids_match_open in H as (x & s' & E & _). injection E as -> _.
  discriminate.
Qed.

(** A braced, non-empty name is replaced by empty braces. *)
Lemma strip_group x s :
  x <> "" -> str_forall (fun c => negb (is_close c)) x = true ->
  _strip_url_ids (String "{" (x ++ "}") ++ s) = "{}" ++ _strip_url_ids s.
Proof.
  intros Hne Hx. destruct (ids_match_group 0 s Hne Hx) as (m & Hm & Hlen).
  unfold _strip_url_ids. now apply sub_const_match with (m := m).
Qed.

(** Empty braces are no ID: they stay. *)
Lemma strip_empty_braces s : _strip_url_ids ("{}" ++ s) = "{}" ++ _strip_url_ids s.
Proof.
  simpl. unfold _strip_url_ids at 1. rewrite sub_const_keep.
  - f_equal. now apply strip_keep.
  - destruct (option_none_or_some
                (Re.match_at URL_PATH_IDS_REGEX 0 (String "{" (String "}" s))))
      as [H|[m H]]; [exact H|].
    apply ids_match_open in H as (x & s' & E & Hne & Hx). injection E as E.
    destruct x as [|c x]; [congruence|].
    simpl in E, Hx. injection E as <- _. discriminate.
Qed.

(** Without a closing brace nothing is an ID. *)
Lemma strip_no_close s :
  str_forall (fun c => negb (is_close c)) s = true -> _strip_url_ids s = s.
Proof.
  induction s as [|c s IH]; intros Hs; [reflexivity|].
  simpl in Hs. apply andb_prop in Hs as [Hc Hs].
  unfold _strip_url_ids. rewrite sub_const_keep.
  - f_equal. now apply IH.
  - destruct (option_none_or_some
                (Re.match_at URL_PATH_IDS_REGEX 0 (String c s)))
      as [H|[m H]]; [exact H|].
    apply ids_match_open in H as (x & s' & E & _ & _). injection E as -> E.
    rewrite E, str_forall_append in Hs. simpl in Hs.
    rewrite andb_false_r in Hs. discriminate.
Qed.

Lemma strip_no_open s :
  str_forall (fun c => negb (is_open c)) s = true -> _strip_url_ids s = s.
Proof.
  induction s as [|c s IH]; intros Hs; [reflexivity|].
  simpl in Hs. apply andb_prop in Hs as [Hc Hs]. apply negb_true_iff in Hc.
  rewrite strip_keep by assumption. f_equal. now apply IH.
Qed.

Lemma strip_prefix a s :
  str_forall (fun c => negb (is_open c)) a = true ->
  _strip_url_ids (a ++ s) = a ++ _strip_url_ids s.
Proof.
  induction a as [|c a IH]; intros Ha; [reflexivity|].
  simpl in Ha. apply andb_prop in Ha as [Hc Ha]. apply negb_true_iff in Hc.
  simpl. rewrite strip_keep by assumption. f_equal. now apply IH.
Qed.

(** Up to the first closing brace, or all of it when there is none. *)
Lemma first_close s :
  str_forall (fun c => negb (is_close c)) s = true \/
  exists x s', s = x ++ String "}" s' /\
               str_forall (fun c => negb (is_close c)) x = true.
Proof.
  induction s as [|c s IH]; [now left|].
  destruct (is_close c) eqn:Hc.
  - right. exists "", s. simpl. split; [|reflexivity].
    apply Ascii.eqb_eq in Hc. now subst c.
  - destruct IH as [H|(x & s' & -> & Hx)].
    + left. simpl. now rewrite Hc.
    + right. exists (String c x), s'. simpl. now rewrite Hc.
Qed.

Lemma strip_idempotent_upto n : forall s,
  String.length s <= n -> _strip_url_ids (_strip_url_ids s) = _strip_url_ids s.
Proof.
  induction n as [|n IH]; intros s Hn.
  - destruct s; [reflexivity | simpl in Hn; lia].
  - destruct s as [|c s]; [reflexivity|]. simpl in Hn.
    destruct (is_open c) eqn:Hc.
    + apply Ascii.eqb_eq in Hc. subst c.
      destruct (first_close s) as [Hs|(x & s' & -> & Hx)].
      * rewrite (strip_no_close (String "{" s)) by (simpl; assumption).
        apply strip_no_close. simpl. assumption.
      * destruct x as [|c x].
        -- change (String "{" ("" ++ String "}" s')) with ("{}" ++ s').
           rewrite strip_empty_braces, strip_empty_braces. f_equal.
           apply IH. rewrite length_append in Hn. simpl in Hn. lia.
        -- replace (String "{" (String c x ++ String "}" s'))
             with (String "{" (String c x ++ "}") ++ s')
             by (simpl; now rewrite append_assoc).
           rewrite strip_group by (assumption || discriminate).
           rewrite strip_empty_braces. f_equal.
           apply IH. rewrite length_append in Hn. simpl in Hn. lia.
    + rewrite strip_keep by assumption. rewrite strip_keep by assumption.
      f_equal. apply IH. lia.
Qed.

End StripFacts.

(** X1. [_strip_url_ids] works ID by ID: text without an opening brace is
    copied, a braced non-empty name becomes empty braces, and the rest is
    stripped in the same way; a URL without braces is returned as it is. *)
Theorem strip_url_ids_compose a name rest :
  str_forall (fun c => negb (is_open c)) a = true ->
  name <> "" ->
  str_forall (fun c => negb (is_close c)) name = true ->
  _strip_url_ids (a ++ "{" ++ name ++ "}" ++ rest)
  = a ++ "{}" ++ _strip_url_ids rest /\
  _strip_url_ids a = a.
Proof.
  intros Ha Hne Hname. split; [|now apply strip_no_open].
  rewrite strip_prefix by assumption. f_equal.
  replace ("{" ++ name ++ "}" ++ rest) with (String "{" (name ++ "}") ++ rest)
    by (simpl; now rewrite append_assoc).
  now apply strip_group.
Qed.

Lemma strip_url_ids_compose_witness :
  _strip_url_ids ("/linode/instances/" ++ "{" ++ "linodeId" ++ "}" ++ "/disks/{diskId}")
  = "/linode/instances/" ++ "{}" ++ _strip_url_ids "/disks/{diskId}" /\
  _strip_url_ids "/linode/instances/" = "/linode/instances/".
Proof.
  apply (@strip_url_ids_compose "/linode/instances/" "linodeId" "/disks/{diskId}").
  - reflexivity.
  - discriminate.
  - reflexivity.
Defined.

(** X2. Stripping is idempotent: a stripped path has no ID left, so the
    empty braces it holds are never taken for one. *)
Theorem strip_url_ids_idempotent url :
  _strip_url_ids (_strip_url_ids url) = _strip_url_ids url.
Proof. now apply strip_idempotent_upto with (n := String.length url). Qed.

(** * More on the resolver and on [replace_urls] *)

(** X3. [_translate_from_components] raises nothing but a [StopIteration]
    (a tag without a summary that no operation of the map carries) or a
    [TranslationError] without metadata whose message is one of: pair not
    found (tag and summary present, pair no key), path not found (the
    derived key is no key of the new index), no external docs. The message
    of the [except ValueError] clause is never produced. *)
Theorem translate_errors self c e :
  _translate_from_components self c = Raise e ->
  match e with
  | StopIteration =>
      exists t, LegacyURLComponents.tag c = Some t /\
        LegacyURLComponents.summary c = None /\
        first_with_tag (_legacy_op_map self) t = Raise StopIteration
  | TranslationError (PairNotFound k) None =>
      exists t s, LegacyURLComponents.tag c = Some t /\
        LegacyURLComponents.summary c = Some s /\ k = (Some t, Some s) /\
        Dict.get key_eqb (_legacy_op_map self) (t, s) = None
  | TranslationError (PathNotFound k) None =>
      exists lop, k = equivalent_key lop /\
        Dict.get key_eqb (CondensedOpenAPI.paths (_new_spec self)) k = None
  | TranslationError (NoExternalDocs nop) None =>
      CondensedOperation.external_docs_url nop = None /\
      exists lop,
        Dict.get key_eqb (CondensedOpenAPI.paths (_new_spec self))
          (equivalent_key lop) = Some nop
  | _ => False
  end.
Proof.
  unfold _translate_from_components.
  destruct (LegacyURLComponents.tag c) as [t|] eqn:Ht; [|discriminate].
  assert (Hrest : forall lop,
    (new_op <-
       match get_equivalent_operation self lop with
       | Raise (ValueError _) =>
           Raise (TranslationError
                    (CouldNotGetEquivalent (Some t, LegacyURLComponents.summary c))
                    None)
       | other => other
       end ;;
     match CondensedOperation.external_docs_url new_op with
     | None => Raise (TranslationError (NoExternalDocs new_op) None)
     | Some u => Return (Some u)
     end) = Raise e ->
    match e with
    | TranslationError (PathNotFound k) None =>
        exists lop, k = equivalent_key lop /\
          Dict.get key_eqb (CondensedOpenAPI.paths (_new_spec self)) k = None
    | TranslationError (NoExternalDocs nop) None =>
        CondensedOperation.external_docs_url nop = None /\
        exists lop,
          Dict.get key_eqb (CondensedOpenAPI.paths (_new_spec self))
            (equivalent_key lop) = Some nop
    | _ => False
    end).
  { intros lop. unfold get_equivalent_operation.
    destruct (Dict.get key_eqb _ (equivalent_key lop)) as [nop|] eqn:Hget; simpl.
    - destruct (CondensedOperation.external_docs_url nop) eqn:Hu; [discriminate|].
      intros E. injection E as <-. eauto.
    - intros E. injection E as <-. eauto. }
  destruct (LegacyURLComponents.summary c) as [s|] eqn:Hs.
  - destruct (Dict.get key_eqb (_legacy_op_map self) (t, s)) as [lop|] eqn:Hget;
      simpl.
    + intros E. apply Hrest in E.
      destruct e as [[]| | | | | | |]; try contradiction;
        destruct translation_meta; try contradiction; exact E.
    + intros E. injection E as <-. exists t, s. auto.
  - unfold first_with_tag at 1.
    destruct (find _ _) as [[k lop]|] eqn:Hf; simpl.
    + intros E. apply Hrest in E.
      destruct e as [[]| | | | | | |]; try contradiction;
        destruct translation_meta; try contradiction; exact E.
    + intros E. injection E as <-. exists t. repeat split.
      unfold first_with_tag. now rewrite Hf.
Qed.

Lemma translate_errors_witness :
  exists t s, LegacyURLComponents.tag
                {| LegacyURLComponents.tag := Some "account";
                   LegacyURLComponents.summary := Some "nope";
                   LegacyURLComponents.anchor := None |} = Some t /\
    LegacyURLComponents.summary
      {| LegacyURLComponents.tag := Some "account";
         LegacyURLComponents.summary := Some "nope";
         LegacyURLComponents.anchor := None |} = Some s /\
    (Some "account", Some "nope") = (Some t, Some s) /\
    Dict.get key_eqb (_legacy_op_map Example.translator) (t, s) = None.
Proof.
  apply (@translate_errors Example.translator
           {| LegacyURLComponents.tag := Some "account";
              LegacyURLComponents.summary := Some "nope";
              LegacyURLComponents.anchor := None |}
           (TranslationError (PairNotFound (Some "account", Some "nope")) None)).
  reflexivity.
Defined.

Section EffectFacts.
Variables (St E : Type).
Variable r : Re.regex.
Variable handler : Re.Match -> St -> outcome E (option string) * St.

(** The state after a substitution that returned: the handler ran once on
    each match, in order, and returned each time. *)
Lemma go_fold s : forall i skip st t st',
  Sub.go r handler i s skip st = (Return t, st') ->
  st' = fold_left (fun a m => snd (handler m a)) (finditer r i s skip) st /\
  forall m, In m (finditer r i s skip) -> exists o, put handler m o.
Proof.
  induction s as [|c s IH]; intros i skip st t st' H; simpl in H |- *.
  - destruct skip; [|inversion H; subst; simpl; tauto].
    destruct (Re.match_at r i "") as [m|]; [|inversion H; subst; simpl; tauto].
    destruct (handler m st) as [[o|e] st1] eqn:Hh; inversion H; subst. simpl.
    rewrite Hh. split; [reflexivity|].
    intros m' [<-|[]]. exists o, st, st'. exact Hh.
  - destruct skip as [|n]; [|eauto].
    destruct (Re.match_at r i (String c s)) as [m|].
    + destruct (handler m st) as [[o|e] st1] eqn:Hh; [|discriminate].
      assert (Hnext : exists u skip', Sub.go r handler (S i) s skip' st1 = (Return u, st')
                /\ skip' = Nat.pred (Re.m_end m - Re.m_start m)).
      { destruct (Re.m_end m - Re.m_start m) as [|n];
          apply emit_Return in H as (u & H & _); eauto. }
      destruct Hnext as (u & skip' & Hgo & ->).
      apply IH in Hgo as [Hst Hall]. simpl. rewrite Hh. simpl.
      split; [exact Hst|].
      intros m' [<-|Hin]; [|auto]. exists o, st, st1. exact Hh.
    + apply emit_Return in H as (u & H & _). eauto.
Qed.

(** What the handler keeps, the substitution keeps, however it ends. *)
Lemma go_invariant (Inv : St -> Prop) s : forall i skip st,
  (forall m a, Inv a -> Inv (snd (handler m a))) ->
  Inv st -> Inv (snd (Sub.go r handler i s skip st)).
Proof.
  induction s as [|c s IH]; intros i skip st Hh Hst; simpl.
  - destruct skip; [|exact Hst].
    destruct (Re.match_at r i "") as [m|]; [|exact Hst].
    pose proof (Hh m st Hst) as H1.
    destruct (handler m st) as [[o|e] st1]; exact H1.
  - destruct skip as [|n]; [|now apply IH].
    destruct (Re.match_at r i (String c s)) as [m|].
    + pose proof (Hh m st Hst) as H1.
      destruct (handler m st) as [[o|e] st1] eqn:Hm; simpl in H1; [|exact H1].
      destruct (Re.m_end m - Re.m_start m) as [|n].
      * pose proof (IH (S i) 0 st1 Hh H1) as H2.
        destruct (Sub.go r handler (S i) s 0 st1) as [[u|e] st2]; exact H2.
      * pose proof (IH (S i) n st1 Hh H1) as H2.
        destruct (Sub.go r handler (S i) s n st1) as [[u|e] st2]; exact H2.
    + pose proof (IH (S i) 0 st Hh Hst) as H2.
      destruct (Sub.go r handler (S i) s 0 st) as [[u|e] st2]; exact H2.
Qed.

(** Passing over the rest of a match, whatever the handler. *)
Lemma go_skip_over x : forall s i st,
  Sub.go r handler i (x ++ s) (String.length x) st
  = Sub.go r handler (i + String.length x) s 0 st.
Proof.
  induction x as [|c x IH]; intros s i st; simpl.
  - now rewrite Nat.add_0_r.
  - rewrite IH. f_equal. lia.
Qed.

End EffectFacts.

Section RecordFacts.
Variables (self : URLTranslator.t) (target : string) (force : bool)
          (path : option string).

Lemma fold_effects ms : forall st,
  (forall m, In m ms -> exists o, put (_sub_handler self target force path) m o) ->
  let st' := fold_left (fun a m => snd (_sub_handler self target force path m a))
               ms st in
  replacements st' = (replacements st ++ recorded self target path ms)%list /\
  stderr st' = (stderr st ++ if force then warnings self target path ms else [])%list /\
  length (recorded self target path ms)
  + length (if force then warnings self target path ms else []) = length ms.
Proof.
  induction ms as [|m ms IH]; intros st Hall; simpl.
  - destruct force; simpl; rewrite ?app_nil_r; auto.
  - destruct (IH (snd (_sub_handler self target force path m st)))
      as (Hr & Hw & Hn); [intros; apply Hall; now right|].
    rewrite Hr, Hw. clear Hr Hw.
    destruct (Hall m (or_introl eq_refl)) as [o Hput].
    apply put_inv in Hput as [Ht|(-> & _ & msg & meta & Ht)];
      rewrite handler_cases, Ht; simpl.
    + rewrite <- app_assoc. simpl. repeat split; try reflexivity.
      rewrite <- Hn. destruct force; simpl; lia.
    + rewrite <- app_assoc. simpl. repeat split; try reflexivity.
      lia.
Qed.

Lemma handler_quiet m st :
  force = false -> stderr st = [] ->
  stderr (snd (_sub_handler self target force path m st)) = [].
Proof.
  intros -> Hst. rewrite handler_cases.
  destruct (translate self m) as [o|[]]; simpl; assumption.
Qed.

End RecordFacts.

(** X4. When [replace_urls] returns, its list holds, in the order of the
    matches, exactly one entry for each match whose translation succeeded
    (the matched text, the new URL, the file and the location); under
    [force] the warnings printed are those of the matches whose translation
    raised a [TranslationError], without it there are none; every match
    is accounted for once. *)
Theorem replace_urls_records self target force path text reps warned :
  replace_urls self target force path = (Return (text, reps), warned) ->
  let ms := finditer LEGACY_URL_REGEX 0 target 0 in
  reps = recorded self target path ms /\
  warned = (if force then warnings self target path ms else []) /\
  length reps + length warned = length ms.
Proof.
  unfold replace_urls, Sub.sub. intros H.
  destruct (Sub.go _ _ 0 target 0 _) as [[t|e] st] eqn:Hgo; inversion H; subst.
  apply go_fold in Hgo as [-> Hall].
  destruct (@fold_effects self target force path _
              {| replacements := []; stderr := [] |} Hall) as (Hr & Hw & Hn).
  simpl in Hr, Hw. rewrite Hr, Hw. auto.
Qed.

Lemma replace_urls_records_witness :
  let ms := finditer LEGACY_URL_REGEX 0 Example.text 0 in
  [{| TranslationMeta.before :=
        "https://www.linode.com/docs/api/account/#account-view";
      TranslationMeta.after := Some "https://techdocs.example/get-account";
      TranslationMeta.file := None;
      TranslationMeta.location := Some (1%Z, 5%Z) |}]
  = recorded Example.translator Example.text None ms /\
  [] = (if false then warnings Example.translator Example.text None ms else []) /\
  length [{| TranslationMeta.before :=
               "https://www.linode.com/docs/api/account/#account-view";
             TranslationMeta.after := Some "https://techdocs.example/get-account";
             TranslationMeta.file := None;
             TranslationMeta.location := Some (1%Z, 5%Z) |}]
  + length (@nil exn) = length ms.
Proof.
  apply (@replace_urls_records Example.translator Example.text false None
           "See https://techdocs.example/get-account and linode.com/docs/api.").
  vm_compute. reflexivity.
Defined.

(** X5. Without [force] nothing is printed to stderr, however the call
    ends. *)
Theorem replace_urls_quiet self target path :
  snd (replace_urls self target false path) = [].
Proof.
  unfold replace_urls, Sub.sub.
  pose proof (go_invariant LEGACY_URL_REGEX
                (_sub_handler self target false path)
                (fun st => stderr st = []) target 0 0
                {| replacements := []; stderr := [] |}
                (fun m a => @handler_quiet self target false path m a eq_refl)
                eq_refl) as H.
  destruct (Sub.go _ _ 0 target 0 _) as [[t|e] st]; exact H.
Qed.

(** X6. Under [force] the call returns unless some matched URL has a tag,
    no summary and no operation of the legacy map under that tag; then, and
    only then, an exception escapes, and it is [StopIteration]. *)
Theorem replace_urls_force_outcome self target path :
  (forall e warned,
     replace_urls self target true path = (Raise e, warned) ->
     e = StopIteration /\
     exists m, In m (finditer LEGACY_URL_REGEX 0 target 0) /\ tag_only_miss self m)
  /\
  ((exists m, In m (finditer LEGACY_URL_REGEX 0 target 0) /\ tag_only_miss self m) ->
   exists warned, replace_urls self target true path = (Raise StopIteration, warned)).
Proof.
  assert (Hsound : forall e warned,
     replace_urls self target true path = (Raise e, warned) ->
     e = StopIteration /\
     exists m, In m (finditer LEGACY_URL_REGEX 0 target 0) /\ tag_only_miss self m).
  { intros e warned H.
    apply replace_urls_raise_inv in H as (m & st0 & st1 & Hin & Hh).
    rewrite handler_cases in Hh.
    destruct (translate self m) as [o|e'] eqn:Ht; [discriminate|].
    assert (He : e' = StopIteration /\ tag_only_miss self m).
    { destruct e'; try discriminate;
        apply (translate_other_inv self m Ht); intros; discriminate. }
    destruct He as [-> Hmiss]. inversion Hh; subst. eauto. }
  split; [exact Hsound|].
  intros (m & Hin & Hmiss).
  destruct (replace_urls_raise_complete self target path true m Hin)
    as (e & warned & He).
  { intros st0. rewrite handler_cases, (translate_tag_only_miss Hmiss). eauto. }
  destruct (Hsound e warned He) as [-> _]. eauto.
Qed.

(** * Matches of the legacy pattern, and where they are *)

Section MatchShapeFacts.

Lemma inside_no_newline c : inside c = true -> negb (Char.only Char.newline c) = true.
Proof.
  unfold inside. intros H. destruct (Char.only Char.newline c) eqn:E; [|reflexivity].
  apply Ascii.eqb_eq in E. subst c. discriminate.
Qed.

Lemma no_newline_append a b : no_newline (a ++ b) = no_newline a && no_newline b.
Proof. apply str_forall_append. Qed.

Lemma neq_no_newline d : d <> Char.newline -> no_newline (String d "") = true.
Proof.
  intros Hd. unfold no_newline, Char.only. simpl.
  destruct (Ascii.eqb d Char.newline) eqn:E; [|reflexivity].
  apply Ascii.eqb_eq in E. contradiction.
Qed.

Lemma matched_base_no_newline sch d :
  dot_ok sch -> d <> Char.newline -> no_newline (matched_base sch d) = true.
Proof.
  intros Hsch Hd. unfold matched_base.
  assert (Hs : no_newline (scheme_text sch) = true).
  { destruct sch as [d0|]; simpl; [|reflexivity].
    change (no_newline ("https://www" ++ String d0 "") = true).
    rewrite no_newline_append, (@neq_no_newline d0 Hsch). reflexivity. }
  change (no_newline (scheme_text sch ++ "linode" ++ String d "" ++ "com/docs/api")
          = true).
  rewrite !no_newline_append, Hs, (@neq_no_newline d Hd). reflexivity.
Qed.

End MatchShapeFacts.

(** X7. Every match of the legacy pattern is at least 19 characters long,
    never crosses a line break, ends right before a double quote,
    whitespace, a closing parenthesis or the end of the subject, and each of
    its groups is either absent or a non-empty run of the characters of its
    class: the resolver never sees an empty tag or summary. *)
Theorem legacy_match_facts i s m :
  Re.match_at LEGACY_URL_REGEX i s = Some m ->
  Re.m_start m = i /\
  Re.m_end m = i + String.length (Re.m_text m) /\
  19 <= String.length (Re.m_text m) /\
  no_newline (Re.m_text m) = true /\
  (exists following,
     s = Re.m_text m ++ following /\ at_boundary following = true) /\
  link_tail_ok (Re.group m "tag") (Re.group m "summary") (Re.group m "anchor").
Proof.
  intros Hm.
  apply match_at_inv in Hm as (w & s' & -> & Hsem & Hst & Hen & Hw).
  rewrite Hw. pose proof (sem_min_len _ _ _ _ Hsem) as Hmin.
  apply legacy_sem in Hsem
    as (sch & d & sl1 & tg & sl2 & h & su & an & E & Hg & Hsch & Hd & Hok & Hb).
  destruct (@group_captured tg su an _ Hg) as (Ht & Hsu & Han).
  unfold Re.group. rewrite Ht, Hsu, Han.
  split; [exact Hst|]. split; [exact Hen|]. split; [exact Hmin|].
  split; [|split; [exists s'; auto | exact Hok]].
  rewrite E, matched_base_app, no_newline_append.
  rewrite (@matched_base_no_newline sch d Hsch Hd). simpl.
  apply str_forall_impl with (p := inside); [apply inside_no_newline|].
  now apply link_tail_inside.
Qed.

Lemma legacy_match_facts_witness :
  let m := {| Re.m_start := 4; Re.m_end := 57;
              Re.m_text := "https://www.linode.com/docs/api/account/#account-view";
              Re.m_groups := [("summary", "account-view"); ("tag", "account")] |} in
  Re.m_start m = 4 /\
  Re.m_end m = 4 + String.length (Re.m_text m) /\
  19 <= String.length (Re.m_text m) /\
  no_newline (Re.m_text m) = true /\
  (exists following,
     "https://www.linode.com/docs/api/account/#account-view) and more"
     = Re.m_text m ++ following /\ at_boundary following = true) /\
  link_tail_ok (Re.group m "tag") (Re.group m "summary") (Re.group m "anchor").
Proof.
  apply (@legacy_match_facts 4
           "https://www.linode.com/docs/api/account/#account-view) and more").
  vm_compute. reflexivity.
Defined.

Section LocationFacts.

Lemma prefix_linesep c s : prefix linesep (String c s) = Char.only Char.newline c.
Proof.
  unfold linesep, Char.only. cbn [prefix].
  destruct (ascii_dec _ c) as [E|Hne].
  - subst c. rewrite Ascii.eqb_refl. now destruct s.
  - symmetry. apply Ascii.eqb_neq. congruence.
Qed.

Lemma count_newlines s : count_from linesep s 0 = newlines s.
Proof.
  unfold newlines. induction s as [|c s IH]; [reflexivity|].
  cbn [count_from str_filter]. rewrite prefix_linesep.
  change (String.length linesep - 1) with 0.
  destruct (Char.only Char.newline c); simpl; now rewrite IH.
Qed.

Lemma newlines_append a b : newlines (a ++ b) = newlines a + newlines b.
Proof.
  unfold newlines. induction a as [|c a IH]; [reflexivity|]. simpl.
  destruct (Char.only Char.newline c); simpl; now rewrite IH.
Qed.

Lemma newlines_none s : no_newline s = true -> newlines s = 0.
Proof.
  unfold newlines, no_newline. induction s as [|c s IH]; [reflexivity|]. simpl.
  destruct (Char.only Char.newline c); simpl; [discriminate | exact IH].
Qed.

Lemma rfind_none s : forall i last,
  no_newline s = true -> rfind_from linesep s i last = last.
Proof.
  unfold no_newline. induction s as [|c s IH]; intros i last Hs; [reflexivity|].
  cbn [rfind_from]. rewrite prefix_linesep. simpl in Hs.
  destruct (Char.only Char.newline c); [discriminate|]. now apply IH.
Qed.

Lemma rfind_after a : forall b i last,
  rfind_from linesep (a ++ linesep ++ b) i last
  = rfind_from linesep b (i + Z.of_nat (String.length a) + 1)
      (i + Z.of_nat (String.length a)).
Proof.
  induction a as [|c a IH]; intros b i last.
  - change ("" ++ linesep ++ b) with (String Char.newline b).
    cbn [rfind_from]. rewrite prefix_linesep. unfold Char.only.
    rewrite Ascii.eqb_refl. simpl String.length. now rewrite Z.add_0_r.
  - cbn [append rfind_from]. rewrite IH. cbn [String.length].
    rewrite Nat2Z.inj_succ. f_equal; lia.
Qed.

End LocationFacts.

(** X8. [get_match_location] gives the 1-based line and column of a
    match: for a match that starts after the whole lines [before] and the
    text [line] of its own line, the line is one more than the number of
    line separators in [before] and the column one more than the length of
    [line]. *)
Theorem match_location before line rest m :
  Re.m_start m = String.length (before ++ line) ->
  before = "" \/ (exists b, before = b ++ linesep) ->
  no_newline line = true ->
  get_match_location (before ++ line ++ rest) m
  = (Z.of_nat (newlines before) + 1, Z.of_nat (String.length line) + 1)%Z.
Proof.
  intros Hst Hbefore Hline. unfold get_match_location, str_count, str_rfind.
  rewrite Hst, <- append_assoc, take_append.
  rewrite count_newlines, newlines_append, (newlines_none _ Hline), Nat.add_0_r.
  f_equal. rewrite length_append, Nat2Z.inj_add.
  destruct Hbefore as [->|[b ->]].
  - simpl. rewrite rfind_none by assumption. lia.
  - rewrite append_assoc, rfind_after, rfind_none by assumption.
    rewrite length_append. unfold linesep. simpl String.length.
    rewrite Nat2Z.inj_add. simpl. lia.
Qed.

Lemma match_location_witness :
  get_match_location
    (("# Title" ++ linesep) ++ "see " ++ "linode.com/docs/api for more")
    {| Re.m_start := 12; Re.m_end := 31; Re.m_text := "linode.com/docs/api";
       Re.m_groups := [] |}
  = (Z.of_nat (newlines ("# Title" ++ linesep)) + 1,
     Z.of_nat (String.length "see ") + 1)%Z.
Proof.
  apply (@match_location ("# Title" ++ linesep) "see "
           "linode.com/docs/api for more").
  - reflexivity.
  - right. now exists "# Title".
  - reflexivity.
Defined.

(** * A link to an operation, translated on its own *)

Section CanonicalFacts.

Lemma sep_unique a : forall a' c c' x x',
  str_forall word_or_hyphen a = true -> str_forall word_or_hyphen a' = true ->
  word_or_hyphen c = false -> word_or_hyphen c' = false ->
  a ++ String c x = a' ++ String c' x' -> a = a' /\ c = c' /\ x = x'.
Proof.
  induction a as [|y a IH]; intros [|y' a'] c c' x x' Ha Ha' Hc Hc' E;
    simpl in *.
  - injection E as -> ->. auto.
  - injection E as -> _. apply andb_prop in Ha' as [Hy _]. congruence.
  - injection E as -> _. apply andb_prop in Ha as [Hy _]. congruence.
  - injection E as -> E. apply andb_prop in Ha as [_ Ha].
    apply andb_prop in Ha' as [_ Ha'].
    destruct (IH a' c c' x x' Ha Ha' Hc Hc' E) as (-> & -> & ->). auto.
Qed.

Lemma sep_absent a c x b :
  str_forall word_or_hyphen b = true -> word_or_hyphen c = false ->
  b = a ++ String c x -> False.
Proof.
  intros Hb Hc ->. rewrite str_forall_append in Hb. simpl in Hb.
  rewrite Hc in Hb. simpl in Hb. rewrite andb_false_r in Hb. discriminate.
Qed.

Lemma tail_words tg su an :
  link_tail_ok tg su an ->
  str_forall word_or_hyphen (text_of tg) = true /\
  str_forall word_or_hyphen (text_of su) = true /\
  str_forall word_or_hyphen (anchor_text an) = true.
Proof.
  intros (Htg & Hsu & Han). repeat split.
  - destruct tg; simpl; [apply Htg | reflexivity].
  - destruct su; simpl; [|reflexivity].
    apply str_forall_impl with (p := alnum_or_hyphen); [apply alnum_is_word|].
    apply Hsu.
  - destruct an; simpl; [apply Han | reflexivity].
Qed.

Lemma text_of_some o t : t <> "" -> text_of o = t -> o = Some t.
Proof. destruct o; simpl; intros Hne E; subst; congruence. Qed.

(** The text after the base of such a link reads in one way only. *)
Lemma canonical_parse t s sl1 tg sl2 h su an :
  t <> "" -> str_forall word_or_hyphen t = true ->
  s <> "" -> str_forall alnum_or_hyphen s = true ->
  link_tail_ok tg su an ->
  link_tail sl1 tg sl2 h su an = "/" ++ t ++ "/#" ++ s ->
  tg = Some t /\ su = Some s /\ an = None.
Proof.
  intros Ht Hwt Hs Has Hok E.
  destruct (tail_words Hok) as (Wtg & Wsu & Wan).
  assert (Wrest : str_forall word_or_hyphen (text_of su ++ anchor_text an) = true)
    by (rewrite str_forall_append, Wsu, Wan; reflexivity).
  assert (Wall : str_forall word_or_hyphen
                   (text_of tg ++ text_of su ++ anchor_text an) = true)
    by (rewrite str_forall_append, Wtg, Wrest; reflexivity).
  unfold link_tail in E.
  change ("/" ++ t ++ "/#" ++ s) with (String "/" (t ++ String "/" (String "#" s)))
    in E.
  destruct sl1; unfold flag in E at 1; cbn [append] in E.
  - injection E as E. destruct sl2; unfold flag in E at 1; cbn [append] in E.
    + apply sep_unique in E as (Etg & _ & E); auto.
      destruct h; unfold flag in E; cbn [append] in E.
      * injection E as E. destruct an as [a|]; simpl in E.
        { exfalso. rewrite <- E, str_forall_append in Has.
          apply andb_prop in Has as [_ Has]. discriminate. }
        rewrite append_nil_r in E.
        split; [now apply text_of_some|]. split; [now apply text_of_some | auto].
      * exfalso. apply (@sep_absent "" "#"%char s _ Wrest); auto.
    + destruct h; unfold flag in E; cbn [append] in E.
      * apply sep_unique in E as (_ & Ec & _); auto. discriminate.
      * exfalso.
        apply (@sep_absent t "/"%char (String "#" s) _ Wall); auto.
  - destruct sl2; unfold flag in E at 1; cbn [append] in E.
    + apply (@sep_unique (text_of tg) "" "/"%char "/"%char) in E
        as (_ & _ & E); auto.
      destruct h; unfold flag in E; cbn [append] in E.
      * apply (@sep_unique "" t "#"%char "/"%char) in E as (_ & Ec & _); auto.
        discriminate.
      * exfalso. apply (@sep_absent t "/"%char (String "#" s) _ Wrest); auto.
    + destruct h; unfold flag in E; cbn [append] in E.
      * apply (@sep_unique (text_of tg) "" "#"%char "/"%char) in E
          as (_ & Ec & _); auto.
        discriminate.
      * exfalso.
        apply (@sep_absent "" "/"%char (t ++ String "/" (String "#" s)) _ Wall);
          auto.
Qed.

Lemma canonical_tail www t s :
  canonical_link www t s = base www ++ link_tail true (Some t) true true (Some s) None.
Proof.
  unfold canonical_link, link_tail, flag, text_of, anchor_text.
  rewrite append_nil_r. reflexivity.
Qed.

(** The pattern matches such a link whole, with its tag and summary. *)
Lemma canonical_match www t s following i :
  t <> "" -> str_forall word_or_hyphen t = true ->
  s <> "" -> str_forall alnum_or_hyphen s = true ->
  at_boundary following = true ->
  exists m,
    Re.match_at LEGACY_URL_REGEX i (canonical_link www t s ++ following) = Some m /\
    Re.m_start m = i /\
    Re.m_end m = i + String.length (canonical_link www t s) /\
    Re.m_text m = canonical_link www t s /\
    Re.group m "tag" = Some t /\ Re.group m "summary" = Some s /\
    Re.group m "anchor" = None.
Proof.
  intros Ht Hwt Hs Has Hb.
  assert (Hok : link_tail_ok (Some t) (Some s) None) by (repeat split; auto).
  rewrite canonical_tail.
  destruct (@match_at_complete LEGACY_URL_REGEX i _ _ _
              (@base_sem www true (Some t) true true (Some s) None following Hok Hb))
    as [m Hm].
  exists m. split; [exact Hm|].
  apply match_at_inv in Hm as (w & s' & E & Hsem & Hst & Hen & Hw).
  apply legacy_sem in Hsem
    as (sch & d & sl1 & tg & sl2 & h & su & an & Ew & Hg & _ & _ & Hok' & Hb').
  rewrite matched_base_app in Ew. subst w.
  rewrite !append_assoc in E. symmetry in E.
  apply base_align in E as [Eb E].
  destruct (@boundary_unique _ _ _ _ E
              (@link_tail_inside sl1 tg sl2 h su an Hok')
              (@link_tail_inside true (Some t) true true (Some s) None Hok) Hb' Hb)
    as [Et _].
  rewrite Eb, Et in Hen, Hw.
  destruct (@group_captured tg su an _ Hg) as (Gt & Gs & Ga).
  unfold Re.group. rewrite Gt, Gs, Ga.
  assert (Et' : link_tail sl1 tg sl2 h su an = "/" ++ t ++ "/#" ++ s).
  { rewrite Et. unfold link_tail, flag, text_of, anchor_text.
    now rewrite append_nil_r. }
  destruct (@canonical_parse t s sl1 tg sl2 h su an Ht Hwt Hs Has Hok' Et')
    as (-> & -> & ->).
  repeat split; assumption.
Qed.

Lemma legacy_no_empty_match i : Re.match_at LEGACY_URL_REGEX i "" = None.
Proof.
  destruct (Re.match_at LEGACY_URL_REGEX i "") as [m|] eqn:Hm; [|reflexivity].
  apply match_at_span in Hm as (_ & H1 & H2 & _).
  pose proof legacy_nonempty. simpl String.length in H2. lia.
Qed.

Lemma location_at_start target m :
  Re.m_start m = 0 -> get_match_location target m = (1, 1)%Z.
Proof.
  intros H. unfold get_match_location, str_count, str_rfind. rewrite H.
  now destruct target.
Qed.

End CanonicalFacts.

Section SingleFacts.
Variables (St E : Type).
Variable r : Re.regex.
Variable handler : Re.Match -> St -> outcome E (option string) * St.

(** A subject that is one match from end to end. *)
Lemma sub_single l m st :
  l <> "" -> Re.match_at r 0 l = Some m ->
  Re.m_end m - Re.m_start m = String.length l ->
  Re.match_at r (String.length l) "" = None ->
  Sub.sub r handler l st
  = match handler m st with
    | (Return o, st1) => (Return (Sub.item o), st1)
    | (Raise e, st1) => (Raise e, st1)
    end.
Proof.
  intros Hl Hm Hlen Hend. destruct l as [|c l]; [congruence|].
  unfold Sub.sub. cbn [Sub.go]. rewrite Hm.
  destruct (handler m st) as [[o|e] st1]; [|reflexivity].
  rewrite Hlen. cbn [String.length].
  pose proof (@go_skip_over St E r handler l "" 1 st1) as Hskip.
  rewrite append_nil_r in Hskip. rewrite Hskip. cbn [Sub.go].
  change (1 + String.length l) with (String.length (String c l)).
  rewrite Hend. simpl.
  now rewrite append_nil_r.
Qed.

End SingleFacts.

(** X9. Given alone, the link to an operation as the legacy documentation
    writes it (base, slash, tag, slash, hash, summary) whose (tag, summary)
    pair is a key of the legacy operation map is replaced whole by the
    documentation URL of the equivalent operation of the new description,
    with one replacement recorded at line 1, column 1 and nothing printed,
    whatever [force] is. *)
Theorem replace_urls_canonical self www t s lop nop u force path :
  t <> "" -> str_forall word_or_hyphen t = true ->
  s <> "" -> str_forall alnum_or_hyphen s = true ->
  Dict.get key_eqb (_legacy_op_map self) (t, s) = Some lop ->
  Dict.get key_eqb (CondensedOpenAPI.paths (_new_spec self)) (equivalent_key lop)
  = Some nop ->
  CondensedOperation.external_docs_url nop = Some u ->
  replace_urls self (canonical_link www t s) force path
  = (Return (u, [{| TranslationMeta.before := canonical_link www t s;
                    TranslationMeta.after := Some u;
                    TranslationMeta.file := path;
                    TranslationMeta.location := Some (1, 1)%Z |}]), []).
Proof.
  intros Ht Hwt Hs Has Hlop Hnop Hu.
  destruct (@canonical_match www t s "" 0 Ht Hwt Hs Has eq_refl)
    as (m & Hm & Hst & Hen & Htext & Gt & Gs & Ga).
  rewrite append_nil_r in Hm.
  assert (Hres : resolves self m lop).
  { exists t. split; [exact Gt|]. now rewrite Gs. }
  pose proof (@translate_resolved_cases self m lop Hres) as Htr.
  rewrite Hnop, Hu in Htr.
  assert (Hne : canonical_link www t s <> "") by (now destruct www).
  unfold replace_urls.
  rewrite (@sub_single _ _ LEGACY_URL_REGEX _ _ m _ Hne Hm);
    [| rewrite Hst, Hen; lia | apply legacy_no_empty_match].
  rewrite handler_cases, Htr. simpl.
  unfold match_meta. now rewrite Htext, (@location_at_start _ m Hst).
Qed.

Lemma replace_urls_canonical_witness :
  replace_urls Example.translator
    (canonical_link true "account" "account-view") false None
  = (Return ("https://techdocs.example/get-account",
             [{| TranslationMeta.before := canonical_link true "account" "account-view";
                 TranslationMeta.after :=
                   Some "https://techdocs.example/get-account";
                 TranslationMeta.file := None;
                 TranslationMeta.location := Some (1, 1)%Z |}]), []).
Proof.
  apply (@replace_urls_canonical Example.translator true "account" "account-view"
           Example.legacy_op Example.new_op).
  - discriminate.
  - reflexivity.
  - discriminate.
  - reflexivity.
  - vm_compute; reflexivity.
  - vm_compute; reflexivity.
  - vm_compute; reflexivity.
Defined.

(** X10. Given alone, such a link whose (tag, summary) pair is no key of
    the legacy operation map is never translated: without [force] the call
    raises the pair-not-found error, and with [force] it returns the link
    as it was, records no replacement and prints that error as a warning.
    In both cases the error carries the link and its place, line 1,
    column 1. *)
Theorem replace_urls_unknown_pair self www t s force path :
  t <> "" -> str_forall word_or_hyphen t = true ->
  s <> "" -> str_forall alnum_or_hyphen s = true ->
  Dict.get key_eqb (_legacy_op_map self) (t, s) = None ->
  let link := canonical_link www t s in
  let err :=
    TranslationError (PairNotFound (Some t, Some s))
      (Some {| TranslationMeta.before := link;
               TranslationMeta.after := None;
               TranslationMeta.file := path;
               TranslationMeta.location := Some (1, 1)%Z |}) in
  replace_urls self link force path
  = if force then (Return (link, []), [err]) else (Raise err, []).
Proof.
  intros Ht Hwt Hs Has Hget link err.
  destruct (@canonical_match www t s "" 0 Ht Hwt Hs Has eq_refl)
    as (m & Hm & Hst & Hen & Htext & Gt & Gs & Ga).
  rewrite append_nil_r in Hm.
  assert (Htr : translate self m
                = Raise (TranslationError (PairNotFound (Some t, Some s)) None)).
  { unfold translate, _translate_from_components, components_of; simpl.
    now rewrite Gt, Gs, Hget. }
  assert (Hne : canonical_link www t s <> "") by (now destruct www).
  unfold replace_urls. fold link in Hm, Hen, Htext, Hne |- *.
  rewrite (@sub_single _ _ LEGACY_URL_REGEX _ _ m _ Hne Hm);
    [| rewrite Hst, Hen; lia | apply legacy_no_empty_match].
  rewrite handler_cases, Htr. unfold match_meta.
  rewrite Htext, (@location_at_start _ m Hst).
  destruct force; reflexivity.
Qed.

Lemma replace_urls_unknown_pair_witness :
  replace_urls Example.translator (canonical_link false "account" "nope") true None
  = (Return (canonical_link false "account" "nope", []),
     [TranslationError (PairNotFound (Some "account", Some "nope"))
        (Some {| TranslationMeta.before := canonical_link false "account" "nope";
                 TranslationMeta.after := None;
                 TranslationMeta.file := None;
                 TranslationMeta.location := Some (1, 1)%Z |})]).
Proof.
  apply (@replace_urls_unknown_pair Example.translator false "account" "nope"
           true None).
  - discriminate.
  - reflexivity.
  - discriminate.
  - reflexivity.
  - vm_compute; reflexivity.
Defined.

(** * What the index and the operation map hold *)

Section EntryFacts.
Variables (K V : Type) (eqb : K -> K -> bool).
Hypothesis eqb_spec : forall a b, eqb a b = true <-> a = b.

Lemma get_in (d : Dict.t K V) k v : Dict.get eqb d k = Some v -> In (k, v) d.
Proof.
  induction d as [|[k0 v0] d IH]; simpl; [discriminate|].
  destruct (eqb k0 k) eqn:E.
  - apply eqb_spec in E as ->. intros H. injection H as ->. now left.
  - auto.
Qed.

Lemma set_entries (P : K -> V -> Prop) (d : Dict.t K V) k v :
  (forall k' v', In (k', v') d -> P k' v') -> P k v ->
  forall k' v', In (k', v') (Dict.set eqb d k v) -> P k' v'.
Proof.
  intros Hd Hkv. induction d as [|[k0 v0] d IH]; simpl.
  - intros k' v' [E|[]]. now injection E as <- <-.
  - destruct (eqb k0 k) eqn:E.
    + apply eqb_spec in E as ->. intros k' v' [E'|Hin].
      * now injection E' as <- <-.
      * apply Hd. now right.
    + intros k' v' [E'|Hin].
      * apply Hd. now left.
      * apply IH; [|exact Hin]. intros. apply Hd. now right.
Qed.

End EntryFacts.

Section IndexEntries.

Lemma index_ops_entries os : forall paths paths',
  index_ops os paths = Return paths' ->
  (forall k c, In (k, c) paths -> own_key k c) ->
  forall k c, In (k, c) paths' -> own_key k c.
Proof.
  induction os as [|[op|] os IH]; intros paths paths' H Hp; simpl in H.
  - now injection H as <-.
  - destruct (from_operation op) as [c0|e]; simpl in H; [|discriminate].
    apply (IH _ _ H).
    apply (@set_entries _ _ key_eqb key_eqb_spec own_key); [exact Hp|].
    reflexivity.
  - now apply (IH _ _ H).
Qed.

Lemma index_paths_entries order items : forall paths paths',
  index_paths order items paths = Return paths' ->
  (forall k c, In (k, c) paths -> own_key k c) ->
  forall k c, In (k, c) paths' -> own_key k c.
Proof.
  induction items as [|p items IH]; intros paths paths' H Hp; simpl in H.
  - now injection H as <-.
  - destruct (getattrs p order) as [os|e]; simpl in H; [|discriminate].
    destruct (index_ops os paths) as [paths1|e] eqn:H1; simpl in H; [|discriminate].
    apply (IH _ _ H). now apply (index_ops_entries _ _ H1).
Qed.

Lemma from_spec_entries order spec cond k c :
  from_spec order spec = Return cond ->
  Dict.get key_eqb (CondensedOpenAPI.paths cond) k = Some c -> own_key k c.
Proof.
  unfold from_spec. intros H Hget.
  destruct (index_paths order _ []) as [paths|e] eqn:Hp; simpl in H; [|discriminate].
  injection H as <-. simpl in Hget.
  apply (@get_in _ _ key_eqb key_eqb_spec) in Hget.
  apply (index_paths_entries _ _ _ Hp); [|exact Hget]. intros ? ? [].
Qed.

Lemma find_last (A : Type) (f : A -> bool) l x :
  find f (l ++ [x])
  = match find f l with
    | Some y => Some y
    | None => if f x then Some x else None
    end.
Proof.
  induction l as [|y l IH]; simpl; [reflexivity|]. now destruct (f y).
Qed.

Lemma build_op_map_from_get ops : forall result k,
  Dict.get key_eqb (build_op_map_from ops result) k
  = match find (filed_under k) (rev ops) with
    | Some op => Some op
    | None => Dict.get key_eqb result k
    end.
Proof.
  induction ops as [|op ops IH]; intros result k; [reflexivity|].
  cbn [build_op_map_from rev]. rewrite find_last. unfold filed_under at 2, op_map_key.
  destruct (CondensedOperation.tag op) as [t|];
    [destruct (CondensedOperation.summary op) as [s|]|]; rewrite IH;
    try (now destruct (find (filed_under k) (rev ops))).
  rewrite (@get_set _ _ _ key_eqb_spec).
  destruct (find (filed_under k) (rev ops)); [reflexivity|].
  now destruct (key_eqb _ k).
Qed.

Lemma find_filed k ops op :
  find (filed_under k) ops = Some op ->
  In op ops /\ op_map_key op = Some k.
Proof.
  intros H. apply find_some in H as [Hin Hf]. split; [exact Hin|].
  unfold filed_under in Hf. destruct (op_map_key op) as [k'|]; [|discriminate].
  apply key_eqb_spec in Hf. now subst.
Qed.

End IndexEntries.

(** X11. The operation map answers a lookup with the last operation, in
    the order of the index, that has a first tag and a summary flattening
    to the looked-up pair: a later operation silently takes the place of an
    earlier one with the same flattened pair, and operations without tag or
    summary are never found. *)
Theorem build_op_map_last_wins legacy_spec k :
  Dict.get key_eqb (_build_op_map legacy_spec) k
  = find (filed_under k) (rev (Dict.values (CondensedOpenAPI.paths legacy_spec))).
Proof.
  unfold _build_op_map. rewrite build_op_map_from_get.
  now destruct (find _ _).
Qed.

(** X12. In a translator built from two descriptions, the operation found
    for a (tag, summary) pair is an operation of the legacy index whose
    first tag and summary flatten to that pair, and whatever
    [get_equivalent_operation] returns for it is filed in the new index
    under the same method and under the legacy path behind the placeholder
    of the version, [/{}]. *)
Theorem translator_lookup_sound order legacy new self t s lop :
  __init__ order legacy new = Return self ->
  Dict.get key_eqb (_legacy_op_map self) (t, s) = Some lop ->
  In lop (Dict.values (CondensedOpenAPI.paths (_legacy_spec self))) /\
  (exists tag summary,
     CondensedOperation.tag lop = Some tag /\
     CondensedOperation.summary lop = Some summary /\
     t = _flatten_path_for_url tag /\ s = _flatten_path_for_url summary) /\
  (forall nop, get_equivalent_operation self lop = Return nop ->
     CondensedOperation.path nop = "/{}" ++ CondensedOperation.path lop /\
     CondensedOperation.method nop = CondensedOperation.method lop).
Proof.
  unfold __init__. intros Hinit Hget.
  destruct (from_spec order legacy) as [l|e] eqn:Hl; simpl in Hinit; [|discriminate].
  destruct (from_spec order new) as [n|e] eqn:Hn; simpl in Hinit; [|discriminate].
  injection Hinit as <-. simpl in *.
  unfold _build_op_map in Hget. rewrite build_op_map_from_get in Hget.
  destruct (find (filed_under (t, s)) _) as [op|] eqn:Hfind; [|discriminate].
  injection Hget as ->.
  apply find_filed in Hfind as [Hin Hkey].
  split; [now apply in_rev|]. split.
  - unfold op_map_key in Hkey.
    destruct (CondensedOperation.tag lop) as [tag|]; [|discriminate].
    destruct (CondensedOperation.summary lop) as [summary|]; [|discriminate].
    injection Hkey as <- <-. exists tag, summary. auto.
  - intros nop. unfold get_equivalent_operation. simpl.
    destruct (Dict.get key_eqb (CondensedOpenAPI.paths n) (equivalent_key lop))
      as [c|] eqn:Hc; [|discriminate].
    intros H. injection H as <-.
    apply (@from_spec_entries order new n _ _ Hn) in Hc.
    unfold own_key, equivalent_key in Hc. injection Hc as <- <-. auto.
Qed.

Lemma translator_lookup_sound_witness :
  In Example.legacy_op
    (Dict.values (CondensedOpenAPI.paths (_legacy_spec Example.translator))) /\
  (exists tag summary,
     CondensedOperation.tag Example.legacy_op = Some tag /\
     CondensedOperation.summary Example.legacy_op = Some summary /\
     "account" = _flatten_path_for_url tag /\
     "account-view" = _flatten_path_for_url summary) /\
  (forall nop,
     get_equivalent_operation Example.translator Example.legacy_op = Return nop ->
     CondensedOperation.path nop = "/{}" ++ CondensedOperation.path Example.legacy_op /\
     CondensedOperation.method nop = CondensedOperation.method Example.legacy_op).
Proof.
  apply (@translator_lookup_sound valid_paths Example.legacy_spec Example.new_spec
           Example.translator "account" "account-view" Example.legacy_op).
  - vm_compute; reflexivity.
  - vm_compute; reflexivity.
Defined.

(** * Flattened values *)

Section FlatFacts.

Lemma flat_out c :
  url_path_allowed (Char.lower c) = true ->
  flat_char (if Char.only " " (Char.lower c) then "-"%char else Char.lower c) = true.
Proof.
  destruct c as [[] [] [] [] [] [] [] []]; intros H; try reflexivity; discriminate.
Qed.

Lemma flat_char_stable c :
  flat_char c = true ->
  Char.lower c = c /\ url_path_allowed c = true /\ Char.only " " c = false.
Proof.
  destruct c as [[] [] [] [] [] [] [] []]; intros H; try discriminate;
    repeat split.
Qed.

Lemma flatten_flat value : flat (_flatten_path_for_url value) = true.
Proof.
  rewrite flatten_eq. unfold flat, lower, replace_space.
  induction value as [|c v IH]; simpl; [reflexivity|].
  destruct (url_path_allowed (Char.lower c)) eqn:Hc; [|exact IH].
  simpl. now rewrite (flat_out c Hc), IH.
Qed.

Lemma flatten_fixed value : flat value = true -> _flatten_path_for_url value = value.
Proof.
  rewrite flatten_eq. unfold flat, lower, replace_space.
  induction value as [|c v IH]; simpl; [reflexivity|].
  intros H. apply andb_prop in H as [Hc Hv].
  destruct (flat_char_stable c Hc) as (-> & -> & Hsp). simpl.
  now rewrite Hsp, IH.
Qed.

End FlatFacts.

(** X13. A flattened value holds only lower-case letters, digits, hyphens
    and the characters between [Z] and [a] (no space, no upper-case
    letter); the values flattening leaves as they are are exactly the
    strings over those characters; so flattening twice is flattening
    once. *)
Theorem flatten_normal_form value :
  flat (_flatten_path_for_url value) = true /\
  (_flatten_path_for_url value = value <-> flat value = true) /\
  _flatten_path_for_url (_flatten_path_for_url value) = _flatten_path_for_url value.
Proof.
  split; [apply flatten_flat|]. split.
  - split; [|apply flatten_fixed].
    intros E. rewrite <- E. apply flatten_flat.
  - apply flatten_fixed, flatten_flat.
Qed.

(** X14. A pair with a character outside that alphabet in its tag or its
    summary (an upper-case letter, say) is no key of an operation map built
    by [_build_op_map]: a link written with such a tag or summary is never
    resolved, whatever the descriptions hold. *)
Theorem build_op_map_flat_keys legacy_spec t s :
  flat t && flat s = false ->
  Dict.get key_eqb (_build_op_map legacy_spec) (t, s) = None.
Proof.
  intros Hflat. unfold _build_op_map. rewrite build_op_map_from_get. simpl.
  destruct (find _ _) as [op|] eqn:Hfind; [|reflexivity].
  apply find_filed in Hfind as [_ Hkey]. unfold op_map_key in Hkey.
  destruct (CondensedOperation.tag op) as [tag|]; [|discriminate].
  destruct (CondensedOperation.summary op) as [summary|]; [|discriminate].
  injection Hkey as <- <-. now rewrite !flatten_flat in Hflat.
Qed.

Lemma build_op_map_flat_keys_witness :
  Dict.get key_eqb (_build_op_map (_legacy_spec Example.translator))
    ("Account", "Account-View") = None.
Proof.
  apply (@build_op_map_flat_keys (_legacy_spec Example.translator)
           "Account" "Account-View").
  reflexivity.
Defined.

(** * The commands and the file system *)

Section CommandFrame.
Variable blob : Type.
Variable loads : blob -> outcome exn URLTranslator.t.
Variable PICKLE_PATH : string.






End CommandFrame.


Section ConvertFacts.
Variable blob : Type.
Variable loads : blob -> outcome exn URLTranslator.t.
Variable PICKLE_PATH : string.




End ConvertFacts.
